(** * XMorphy: morpheme labels, corpus-line parsing, label decoding and scoring

    A shallow embedding of [scripts/rules/morph_model.py]: the classes
    [MorphemeLabel], [Morpheme] and [Word], the functions [parse_morpheme],
    [parse_word] and [measure_quality], and the method
    [MorphemModel._transform_classification].

    Python values are modelled as follows.
    - A [str] is a list of Unicode code points, so that [len] counts
      letters (Cyrillic letters included) as Python does.
    - [None] where a string is expected is [None] of [option str].
    - An exception is a constructor of [exn]; a function that can raise
      returns a [result].
    - Python integers are [Z]; list lengths are [nat].
    - The scorer's ratios are exact rationals [Q]: Python's true division
      yields the double nearest to the exact quotient, which is exact for
      the quotient 1 and is never reached for a zero divisor. *)

From Stdlib Require Import String Ascii Bool Arith NArith ZArith QArith Lia List.
Import ListNotations.
Close Scope Q_scope.

Set Implicit Arguments.

(** ** Python strings *)

Module PyStr.

Abbreviation char := N (only parsing).
Abbreviation str := (list N) (only parsing).

(** An ASCII literal of the source as a [str]. *)
Definition lit (s : string) : str :=
  List.map N_of_ascii (list_ascii_of_string s).

Fixpoint eqb (a b : str) : bool :=
  match a, b with
  | [], [] => true
  | x :: a', y :: b' => N.eqb x y && eqb a' b'
  | _, _ => false
  end.

(** [s.startswith(p)] *)
Fixpoint startswith (s p : str) : bool :=
  match p, s with
  | [], _ => true
  | y :: p', x :: s' => N.eqb x y && startswith s' p'
  | _ :: _, [] => false
  end.

(** [needle in hay] *)
Fixpoint contains (needle hay : str) : bool :=
  startswith hay needle ||
  match hay with
  | [] => false
  | _ :: hay' => contains needle hay'
  end.

(** [s.count(c)] for a one-character [c] *)
Fixpoint count (c : char) (s : str) : nat :=
  match s with
  | [] => 0
  | x :: s' => (if N.eqb x c then 1 else 0) + count c s'
  end.

(** [s.split(c)] for a one-character separator [c] *)
Fixpoint split (c : char) (s : str) : list str :=
  match s with
  | [] => [[]]
  | x :: s' =>
      if N.eqb x c then [] :: split c s'
      else match split c s' with
           | h :: t => (x :: h) :: t
           | [] => [[x]]
           end
  end.

(** [sep.join(l)] *)
Fixpoint join (sep : str) (l : list str) : str :=
  match l with
  | [] => []
  | [s] => s
  | s :: l' => s ++ sep ++ join sep l'
  end.

Definition tab : char := 9%N.
Definition colon : char := 58%N.
Definition slash : char := 47%N.

End PyStr.

Import PyStr.

(** ** Exceptions *)

Inductive exn : Type :=
| IndexError
| TypeError
| AttributeError
| KeyError
| ValueError
| ZeroDivisionError
| UnknownClass (class_info : str).   (* Exception("Unknown class", class_info) *)

Inductive result (A : Type) : Type :=
| Ok (a : A)
| Raise (e : exn).

Arguments Ok {A} a.
Arguments Raise {A} e.

Definition bind {A B} (r : result A) (k : A -> result B) : result B :=
  match r with
  | Ok a => k a
  | Raise e => Raise e
  end.

Notation "x <- r ;; k" := (bind r (fun x => k))
  (at level 61, r at next level, right associativity).

(** A list comprehension whose element expression can raise. *)
Fixpoint mapM {A B} (f : A -> result B) (l : list A) : result (list B) :=
  match l with
  | [] => Ok []
  | a :: l' => b <- f a ;; bs <- mapM f l' ;; Ok (b :: bs)
  end.

(** ['p' + v] where [v] may be [None]: concatenating [None] to a [str]
    raises [TypeError]. *)
Definition add_str (p : str) (v : option str) : result str :=
  match v with
  | Some s => Ok (p ++ s)
  | None => Raise TypeError
  end.

(** ** class MorphemeLabel(Enum) *)

Inductive MorphemeLabel : Type :=
| UNKN | PREF | ROOT | SUFF | END | LINK | HYPH | POSTFIX | NONE.

(** [label.value] *)
Definition value (l : MorphemeLabel) : option str :=
  match l with
  | UNKN => Some (lit "UNKN")
  | PREF => Some (lit "PREF")
  | ROOT => Some (lit "ROOT")
  | SUFF => Some (lit "SUFF")
  | END => Some (lit "END")
  | LINK => Some (lit "LINK")
  | HYPH => Some (lit "HYPH")
  | POSTFIX => Some (lit "POSTFIX")
  | NONE => None
  end.

Definition all_labels : list (string * MorphemeLabel) :=
  [ ("UNKN", UNKN); ("PREF", PREF); ("ROOT", ROOT); ("SUFF", SUFF);
    ("END", END); ("LINK", LINK); ("HYPH", HYPH); ("POSTFIX", POSTFIX);
    ("NONE", NONE) ]%string.

(** [MorphemeLabel[name]]: lookup of a member by its name. *)
Definition label_of_name (name : str) : result MorphemeLabel :=
  match find (fun p => PyStr.eqb (lit (fst p)) name) all_labels with
  | Some p => Ok (snd p)
  | None => Raise KeyError
  end.

Definition label_eqb (a b : MorphemeLabel) : bool :=
  match a, b with
  | UNKN, UNKN | PREF, PREF | ROOT, ROOT | SUFF, SUFF | END, END
  | LINK, LINK | HYPH, HYPH | POSTFIX, POSTFIX | NONE, NONE => true
  | _, _ => false
  end.

(** ** class Morpheme *)

(** [__init__] stores [part_text], [begin_pos] and [label]; [length] and
    [end_pos] are computed there from the other fields and nothing
    reassigns them, so they are functions of the record. *)
Record Morpheme : Type := mkMorpheme {
  part_text : str;
  label : MorphemeLabel;
  begin_pos : Z
}.

(** [s[1:]] and [s[1:-1]] *)
Definition slice_1 (s : str) : str := tl s.
Definition slice_1_m1 (s : str) : str := removelast (tl s).

Module Morpheme_.

Definition length (m : Morpheme) : nat := List.length (part_text m).
Definition end_pos (m : Morpheme) : Z :=
  (begin_pos m + Z.of_nat (length m))%Z.

Definition get_labels (m : Morpheme) : result (list str) :=
  if Nat.eqb (length m) 1 then
    s <- add_str (lit "S-") (value (label m)) ;;
    Ok [s]
  else
    b <- add_str (lit "B-") (value (label m)) ;;
    mids <- fold_right
              (fun _ acc =>
                 acc' <- acc ;;
                 x <- add_str (lit "M-") (value (label m)) ;;
                 Ok (x :: acc'))
              (Ok []) (slice_1_m1 (part_text m)) ;;
    e <- add_str (lit "E-") (value (label m)) ;;
    Ok ([b] ++ mids ++ [e]).

(** The elements are [label.value], which is [None] for [NONE]. *)
Definition get_simple_labels (m : Morpheme) : result (list (option str)) :=
  if label_eqb (label m) SUFF || label_eqb (label m) PREF
     || label_eqb (label m) ROOT then
    b <- add_str (lit "B-") (value (label m)) ;;
    Ok ([Some b] ++
        (if Nat.ltb 1 (length m)
         then List.map (fun _ => value (label m)) (slice_1 (part_text m))
         else []))
  else
    Ok (repeat (value (label m)) (length m)).

(** [__str__] *)
Definition to_str (m : Morpheme) : result str :=
  add_str (part_text m ++ [colon]) (value (label m)).

(** The property [unlabeled]: [not self.label.value], true for [None] and
    for the empty string. *)
Definition unlabeled (m : Morpheme) : bool :=
  match value (label m) with
  | None => true
  | Some [] => true
  | Some (_ :: _) => false
  end.

End Morpheme_.

(** ** class Word *)

Record Word : Type := mkWord {
  morphemes : list Morpheme;
  sp : str
}.

Module Word_.

Definition get_word (w : Word) : str :=
  List.concat (List.map part_text (morphemes w)).

Fixpoint collect {A} (f : Morpheme -> result (list A)) (ms : list Morpheme)
         (acc : list A) : result (list A) :=
  match ms with
  | [] => Ok acc
  | m :: ms' => l <- f m ;; collect f ms' (acc ++ l)
  end.

Definition get_labels (w : Word) : result (list str) :=
  collect Morpheme_.get_labels (morphemes w) [].

Definition get_simple_labels (w : Word) : result (list (option str)) :=
  collect Morpheme_.get_simple_labels (morphemes w) [].

(** [__len__] *)
Definition len (w : Word) : nat :=
  fold_left (fun s m => s + Morpheme_.length m) (morphemes w) 0.

Definition parts_count (w : Word) : nat := List.length (morphemes w).

(** [MorphemeLabel.name]: the attribute [name] of the enumeration class,
    which has its members and nothing else to offer here. *)
Definition MorphemeLabel_attr (name : string) : result MorphemeLabel :=
  match find (fun p => String.eqb (fst p) name) all_labels with
  | Some p => Ok (snd p)
  | None => Raise AttributeError
  end.

(** [[x for x in l if cond(x)]] where the condition can raise. *)
Fixpoint filterM {A} (cond : A -> result bool) (l : list A)
  : result (list A) :=
  match l with
  | [] => Ok []
  | x :: l' =>
      b <- cond x ;;
      rest <- filterM cond l' ;;
      Ok (if (b : bool) then x :: rest else rest)
  end.

(** The condition of [suffix_count] compares with [MorphemeLabel.SUFFIX]. *)
Definition suffix_count (w : Word) : result nat :=
  l <- filterM (fun m => suffix <- MorphemeLabel_attr "SUFFIX" ;;
                         Ok (label_eqb (label m) suffix))
               (morphemes w) ;;
  Ok (List.length l).

(** [__str__] *)
Definition to_str (w : Word) : result str :=
  strs <- mapM Morpheme_.to_str (morphemes w) ;;
  Ok (join [slash] strs).

(** The property [unlabeled] *)
Definition unlabeled (w : Word) : bool :=
  forallb Morpheme_.unlabeled (morphemes w).

End Word_.

(** ** parse_morpheme, parse_word *)

Definition parse_morpheme (str_repr : str) (position : Z) : result Morpheme :=
  match split colon str_repr with
  | [text; label] =>
      l <- label_of_name label ;;
      Ok (mkMorpheme text l position)
  | _ => Raise ValueError             (* unpacking into two names *)
  end.

(** The body of [for part in parts] with its two loop variables. *)
Fixpoint parse_parts (parts : list str) (morphemes : list Morpheme)
         (global_index : Z) : result (list Morpheme) :=
  match parts with
  | [] => Ok morphemes
  | part :: parts' =>
      m <- parse_morpheme part global_index ;;
      parse_parts parts' (morphemes ++ [m])
                  (global_index + Z.of_nat (List.length part))
  end.

(** The part-of-speech chain of the four-field format. *)
Definition class_of (class_info : str) : result str :=
  if contains (lit "ADJ") class_info then Ok (lit "ADJ")
  else if contains (lit "VERB") class_info then Ok (lit "VERB")
  else if contains (lit "NOUN") class_info then Ok (lit "NOUN")
  else if contains (lit "GRND") class_info then Ok (lit "GRND")
  else if contains (lit "ADV") class_info then Ok (lit "ADV")
  else if contains (lit "PART") class_info then Ok (lit "PART")
  else Raise (UnknownClass class_info).

(** The first [if]/[elif]/[else] of [parse_word]: the fields
    [(wordform, word_parts, sp)] of the line. *)
Definition split_fields (str_repr : str) : result (str * str * str) :=
  if Nat.eqb (count tab str_repr) 3 then
    match split tab str_repr with
    | [wordform; word_parts; _; class_info] =>
        sp <- class_of class_info ;;
        Ok (wordform, word_parts, sp)
    | _ => Raise ValueError
    end
  else if Nat.eqb (count tab str_repr) 2 then
    match split tab str_repr with
    | [wordform; word_parts; sp] => Ok (wordform, word_parts, sp)
    | _ => Raise ValueError
    end
  else
    match split tab str_repr with
    | [wordform; word_parts] => Ok (wordform, word_parts, lit "X")
    | _ => Raise ValueError
    end.

(** [parse_word] returns [None] ([Ok None] here), a [Word], or raises. *)
Definition parse_word (str_repr : str) : result (option Word) :=
  fields <- split_fields str_repr ;;
  let '(wordform, word_parts, sp) := fields in
  if contains [colon] wordform || contains [slash] wordform then
    Ok None
  else
    let parts := split slash word_parts in
    morphemes <- parse_parts parts [] 0%Z ;;
    Ok (Some (mkWord morphemes sp)).

(** ** MorphemModel._transform_classification *)

Definition pyval := option str.

(** [a == b] on values that are a [str] or [None] *)
Definition pyval_eqb (a b : pyval) : bool :=
  match a, b with
  | Some x, Some y => PyStr.eqb x y
  | None, None => true
  | _, _ => false
  end.

Definition is_lit (v : pyval) (s : string) : bool := pyval_eqb v (Some (lit s)).

(** [letter.startswith('B-')]; [None] has no such attribute. *)
Definition starts_B (letter : pyval) : result bool :=
  match letter with
  | Some s => Ok (startswith s (lit "B-"))
  | None => Raise AttributeError
  end.

(** The first loop: [prev] is [parse[index - 1]], [rest] is what is left of
    [parse[1:]]. *)
Fixpoint split_parts (parts : list (list pyval)) (current_part : list pyval)
         (prev : pyval) (rest : list pyval)
  : result (list (list pyval) * list pyval) :=
  match rest with
  | [] => Ok (parts, current_part)
  | letter :: rest' =>
      if is_lit letter "SUFF" && is_lit prev "B-SUFF" then
        split_parts parts (current_part ++ [letter]) letter rest'
      else if is_lit letter "PREF" && is_lit prev "B-PREF" then
        split_parts parts (current_part ++ [letter]) letter rest'
      else if is_lit letter "ROOT" && is_lit prev "B-ROOT" then
        split_parts parts (current_part ++ [letter]) letter rest'
      else
        closes <- (if negb (pyval_eqb letter prev) then Ok true
                   else starts_B letter) ;;
        if (closes : bool) then
          split_parts (parts ++ [current_part]) [letter] letter rest'
        else
          split_parts parts (current_part ++ [letter]) letter rest'
  end.

(** The three [if part[0] == 'B-...'] assignments, in order. *)
Definition strip_B (p0 : pyval) : pyval :=
  let p0 := if is_lit p0 "B-PREF" then Some (lit "PREF") else p0 in
  let p0 := if is_lit p0 "B-SUFF" then Some (lit "SUFF") else p0 in
  let p0 := if is_lit p0 "B-ROOT" then Some (lit "ROOT") else p0 in
  p0.

(** The body of the second loop, on one part. *)
Definition relabel (part : list pyval) : result (list str) :=
  match part with
  | [] => Raise IndexError
  | p0 :: others =>
      let p0 := strip_B p0 in
      if Nat.eqb (List.length part) 1 then
        s <- add_str (lit "S-") p0 ;;
        Ok [s]
      else
        b <- add_str (lit "B-") p0 ;;
        e <- add_str (lit "E-") (last others None) ;;
        mids <- mapM (add_str (lit "M-")) (removelast others) ;;
        Ok ([b] ++ mids ++ [e])
  end.

Definition _transform_classification (parse : list pyval)
  : result (list str) :=
  match parse with
  | [] => Raise IndexError                       (* parse[0] *)
  | first :: rest =>
      st <- split_parts [] [first] first rest ;;
      let '(parts, current_part) := st in
      let parts := match current_part with
                   | [] => parts
                   | _ :: _ => parts ++ [current_part]
                   end in
      parts' <- mapM relabel parts ;;
      Ok (List.concat parts')
  end.

(** ** measure_quality *)

Definition SE : list str :=
  flat_map
    (fun x => List.map (fun y => [x] ++ lit "-" ++ y)
                [lit "ROOT"; lit "PREF"; lit "SUFF"; lit "END"; lit "LINK";
                 lit "None"])
    (lit "SE").

(** [s in l] for a list of strings *)
Definition str_in (s : str) (l : list str) : bool := existsb (PyStr.eqb s) l.

(** [[i for i in range(len(seq)) if seq[i] in SE]] *)
Definition boundaries_of (labels : list str) : list nat :=
  filter (fun i => str_in (nth i labels []) SE) (seq 0 (List.length labels)).

(** [a == b] on lists of strings *)
Fixpoint labels_eqb (a b : list str) : bool :=
  match a, b with
  | [], [] => true
  | x :: a', y :: b' => PyStr.eqb x y && labels_eqb a' b'
  | _, _ => false
  end.

(** [sum(int(x == y) for x, y in zip(corr, pred))] *)
Definition equal_count (corr pred : list str) : Z :=
  fold_left Z.add
    (List.map (fun p => if PyStr.eqb (fst p) (snd p) then 1 else 0)%Z
              (combine corr pred)) 0%Z.

(** The counters of the loop. *)
Record counters : Type := mkCounters {
  TP : Z; FP : Z; FN : Z; equal : Z; total : Z; corr_words : Z
}.

Definition counters0 : counters := mkCounters 0 0 0 0 0 0.

(** One iteration of [for corr, pred, word in zip(...)]; the [print] of the
    verbose mode writes to the console and changes no counter. *)
Definition step (c : counters) (corr pred : list str) : counters :=
  let boundaries := boundaries_of corr in
  let pred_boundaries := boundaries_of pred in
  let common := filter (fun x => existsb (Nat.eqb x) pred_boundaries)
                       boundaries in
  let n := fun (l : list nat) => Z.of_nat (List.length l) in
  mkCounters
    (TP c + n common)
    (FP c + (n pred_boundaries - n common))
    (FN c + (n boundaries - n common))
    (equal c + equal_count corr pred)
    (total c + Z.of_nat (List.length corr))
    (corr_words c + (if labels_eqb corr pred then 1 else 0)).

(** [zip] of three lists stops at the shortest. *)
Fixpoint zip3 {A B C} (a : list A) (b : list B) (c : list C)
  : list (A * B * C) :=
  match a, b, c with
  | x :: a', y :: b', z :: c' => (x, y, z) :: zip3 a' b' c'
  | _, _, _ => []
  end.

Definition run_loop (rows : list (list str * list str * Word)) (c : counters)
  : counters :=
  fold_left (fun c row => step c (fst (fst row)) (snd (fst row))) rows c.

(** [a / b] of Python: a zero divisor raises; the quotient is kept in
    lowest terms, one representation per number. *)
Definition truediv (a b : Q) : result Q :=
  if Qeq_bool b 0 then Raise ZeroDivisionError else Ok (Qred (a / b)).

Definition metrics : list str :=
  [lit "Precision"; lit "Recall"; lit "F1"; lit "Accuracy";
   lit "Word accuracy"].

Definition results_of (c : counters) (n_targets : nat) : result (list Q) :=
  precision <- truediv (inject_Z (TP c)) (inject_Z (TP c + FP c)) ;;
  recall <- truediv (inject_Z (TP c)) (inject_Z (TP c + FN c)) ;;
  f1 <- truediv (inject_Z (TP c))
                (inject_Z (TP c) + (1 # 2) * inject_Z (FP c + FN c))%Q ;;
  accuracy <- truediv (inject_Z (equal c)) (inject_Z (total c)) ;;
  word_accuracy <- truediv (inject_Z (corr_words c))
                           (inject_Z (Z.of_nat n_targets)) ;;
  Ok [precision; recall; f1; accuracy; word_accuracy].

Definition measure_quality (predicted_targets targets : list (list str))
           (words : list Word) (verbose : bool) : result (list (str * Q)) :=
  let c := run_loop (zip3 targets predicted_targets words) counters0 in
  results <- results_of c (List.length targets) ;;
  Ok (combine metrics results).

(** ** The two encodings in closed form *)

(** The full labels of a morpheme of kind name [v] and length [n]. *)
Definition full_of (v : str) (n : nat) : list str :=
  if Nat.eqb n 1 then [lit "S-" ++ v]
  else [lit "B-" ++ v] ++ repeat (lit "M-" ++ v) (n - 2) ++ [lit "E-" ++ v].

(** The simple labels of a morpheme of kind [l] and length [n]. *)
Definition simple_of (l : MorphemeLabel) (n : nat) : list pyval :=
  match l with
  | SUFF | PREF | ROOT =>
      option_map (app (lit "B-")) (value l) :: repeat (value l) (n - 1)
  | _ => repeat (value l) n
  end.

(** A morpheme as the data model wants it: some text, a kind. *)
Definition well_formed (m : Morpheme) : Prop :=
  1 <= Morpheme_.length m /\ label m <> NONE.

(** The name of a kind, [UNKN] standing in where there is none. *)
Definition kind_name (l : MorphemeLabel) : str :=
  match value l with
  | Some v => v
  | None => lit "UNKN"
  end.

Definition name_of (m : Morpheme) : str := kind_name (label m).

(** ** Scenario words *)

Module Scenario.
(* при, двор, н, ый *)
Definition pri : str := [1087; 1088; 1080]%N.
Definition dvor : str := [1076; 1074; 1086; 1088]%N.
Definition n : str := [1085]%N.
Definition yj : str := [1099; 1081]%N.

(** The corpus line
    [придворный<TAB>при:PREF/двор:ROOT/н:SUFF/ый:END]. *)
Definition pridvornyj : str :=
  pri ++ dvor ++ n ++ yj ++ [tab] ++
  pri ++ lit ":PREF/" ++ dvor ++ lit ":ROOT/" ++ n ++ lit ":SUFF/" ++
  yj ++ lit ":END".
End Scenario.

(** ** The decoder on lists of strings

    When every element of [parse] is a string, no step of
    [_transform_classification] can raise; [extends], [groups] and
    [relabel_str] are its two loops on such lists, with the parts consed
    in front instead of appended behind. *)

(** The letter [letter] is appended to the current part after [prev]. *)
Definition extends (prev letter : str) : bool :=
  PyStr.eqb letter (lit "SUFF") && PyStr.eqb prev (lit "B-SUFF")
  || PyStr.eqb letter (lit "PREF") && PyStr.eqb prev (lit "B-PREF")
  || PyStr.eqb letter (lit "ROOT") && PyStr.eqb prev (lit "B-ROOT")
  || PyStr.eqb letter prev && negb (startswith letter (lit "B-")).

Fixpoint groups (prev : str) (cur : list str) (rest : list str)
  : list (list str) :=
  match rest with
  | [] => [cur]
  | letter :: rest' =>
      if extends prev letter then groups letter (cur ++ [letter]) rest'
      else cur :: groups letter [letter] rest'
  end.

Definition strip_str (p0 : str) : str :=
  if PyStr.eqb p0 (lit "B-PREF") then lit "PREF"
  else if PyStr.eqb p0 (lit "B-SUFF") then lit "SUFF"
  else if PyStr.eqb p0 (lit "B-ROOT") then lit "ROOT"
  else p0.

Definition relabel_str (part : list str) : list str :=
  match part with
  | [] => []
  | [p0] => [lit "S-" ++ strip_str p0]
  | p0 :: others =>
      [lit "B-" ++ strip_str p0]
        ++ List.map (app (lit "M-")) (removelast others)
        ++ [lit "E-" ++ last others []]
  end.

(** One of the four positional prefixes starts [s]. *)
Definition positional (s : str) : bool :=
  startswith s (lit "S-") || startswith s (lit "B-")
  || startswith s (lit "M-") || startswith s (lit "E-").

(** ** Words that the simple labels can tell apart *)

(** The kinds whose simple labels open with a [B-] tag. *)
Definition opens_with_B (l : MorphemeLabel) : bool :=
  match l with
  | SUFF | PREF | ROOT => true
  | _ => false
  end.

(** The first simple label of a morpheme of kind [l]. *)
Definition head_label (l : MorphemeLabel) : str :=
  if opens_with_B l then lit "B-" ++ kind_name l else kind_name l.

(** The simple labels of a morpheme as strings. *)
Definition simple_strs (m : Morpheme) : list str :=
  head_label (label m) :: repeat (kind_name (label m)) (Morpheme_.length m - 1).

(** No two neighbours share a kind outside PREF, ROOT and SUFF. *)
Fixpoint separable (ms : list Morpheme) : Prop :=
  match ms with
  | m :: ((m' :: _) as ms') =>
      (label m = label m' -> opens_with_B (label m) = true) /\ separable ms'
  | _ => True
  end.

(** [prev] is a simple label that a morpheme of kind [l] can end with. *)
Definition closes_kind (l : MorphemeLabel) (prev : str) : Prop :=
  prev = kind_name l \/ (opens_with_B l = true /\ prev = lit "B-" ++ kind_name l).

(** Two endings, А and Я, side by side. *)
Definition two_endings : Word :=
  mkWord [mkMorpheme [1072%N] END 0; mkMorpheme [1103%N] END 1] (lit "X").

(** ** Closed forms for the parser *)

(** The member name that [MorphemeLabel[name]] maps to [l]. *)
Definition member_name (l : MorphemeLabel) : str :=
  match l with
  | UNKN => lit "UNKN"
  | PREF => lit "PREF"
  | ROOT => lit "ROOT"
  | SUFF => lit "SUFF"
  | END => lit "END"
  | LINK => lit "LINK"
  | HYPH => lit "HYPH"
  | POSTFIX => lit "POSTFIX"
  | NONE => lit "NONE"
  end.

(** The offsets that the loop of [parse_word] hands out from [gi] on: each
    token moves the index by its whole length, text, colon and kind name. *)
Fixpoint token_offsets (gi : Z) (ms : list Morpheme) : Prop :=
  match ms with
  | [] => True
  | m :: ms' =>
      begin_pos m = gi /\
      token_offsets
        (gi + Z.of_nat (Morpheme_.length m + 1
                        + List.length (member_name (label m)))) ms'
  end.

(** The line [wordA:wordB<TAB>x:ROOT<TAB>_<TAB>INTJ]: four fields, a colon
    in the word form, a class outside the six that are looked for. *)
Definition colon_and_unknown_class : str :=
  lit "wordA:wordB" ++ [tab] ++ lit "x:ROOT" ++ [tab] ++ lit "_" ++ [tab]
      ++ lit "INTJ".

(** The line [wordA:wordB<TAB>роот:ROOT] of the scenario. *)
Definition colon_in_wordform : str :=
  lit "wordA:wordB" ++ [tab] ++ [1088; 1086; 1086; 1090]%N ++ lit ":ROOT".

(** ** Closed forms for the scorer *)

(** The value of [SE], element by element. *)
Definition SE_listed : list str :=
  List.map lit
    ["S-ROOT"; "S-PREF"; "S-SUFF"; "S-END"; "S-LINK"; "S-None";
     "E-ROOT"; "E-PREF"; "E-SUFF"; "E-END"; "E-LINK"; "E-None"]%string.

(** The boundary set as the specification spells it, with [S-NONE] and
    [E-NONE] in capitals. *)
Definition SE_in_spec : list str :=
  List.map lit
    ["S-ROOT"; "S-PREF"; "S-SUFF"; "S-END"; "S-LINK"; "S-NONE";
     "E-ROOT"; "E-PREF"; "E-SUFF"; "E-END"; "E-LINK"; "E-NONE"]%string.

(** What one word adds to [TP], [FN] and [FP]. *)
Definition word_TP (corr pred : list str) : Z := TP (step counters0 corr pred).
Definition word_FN (corr pred : list str) : Z := FN (step counters0 corr pred).
Definition word_FP (corr pred : list str) : Z := FP (step counters0 corr pred).

(** The sum of [f corr pred] over the rows of a data set. *)
Definition sum_rows (f : list str -> list str -> Z)
           (rows : list (list str * list str * Word)) : Z :=
  fold_right (fun row s => f (fst (fst row)) (snd (fst row)) + s)%Z 0%Z rows.

(** Gold labels with boundaries at 2 and 5, predicted labels with
    boundaries at 2 and 6. *)
Definition gold_2_5 : list str :=
  List.map lit ["B-PREF"; "M-PREF"; "E-PREF"; "B-ROOT"; "M-ROOT"; "E-ROOT"]%string.
Definition pred_2_6 : list str :=
  List.map lit
    ["B-PREF"; "M-PREF"; "E-PREF"; "B-ROOT"; "M-ROOT"; "M-ROOT"; "E-ROOT"]%string.

(** The counters after a loop in which every prediction was its gold
    sequence, [n] words in. *)
Definition perfect (c : counters) (n : nat) : Prop :=
  FP c = 0%Z /\ FN c = 0%Z /\ equal c = total c /\
  corr_words c = Z.of_nat n /\ (0 <= TP c <= total c)%Z.

(** The five metrics, all 1. *)
Definition all_ones : list (str * Q) :=
  [(lit "Precision", 1%Q); (lit "Recall", 1%Q); (lit "F1", 1%Q);
   (lit "Accuracy", 1%Q); (lit "Word accuracy", 1%Q)].

(** The hyphen as a word of its own. *)
Definition hyphen_word : Word :=
  mkWord [mkMorpheme (lit "-") HYPH 0] (lit "X").

(** The smallest of the three lengths, where [zip] stops. *)
Definition zip_length {A B C} (a : list A) (b : list B) (c : list C) : nat :=
  Nat.min (Nat.min (List.length a) (List.length b)) (List.length c).

(** A full label that closes a morpheme: an [S-] or an [E-] tag. *)
Definition ends_morpheme (s : str) : bool :=
  startswith s (lit "S-") || startswith s (lit "E-").

Definition count_ends (l : list str) : nat :=
  List.length (filter ends_morpheme l).

(** ** Counting the morphemes without text *)

Definition no_text (m : Morpheme) : bool := Nat.eqb (Morpheme_.length m) 0.

(** The morphemes without text, and those of them that are of kind PREF,
    ROOT or SUFF. *)
Definition empty_count (ms : list Morpheme) : nat :=
  List.length (filter no_text ms).
Definition empty_B_count (ms : list Morpheme) : nat :=
  List.length (filter (fun m => no_text m && opens_with_B (label m)) ms).

(** ** Tokens of the morpheme field *)


(** No tab, colon or slash in [s]. *)
Definition plain (s : str) : Prop :=
  count tab s = 0 /\ count colon s = 0 /\ count slash s = 0.

(** ** Well-formed full labels *)

(** A sequence of full labels reads as morphemes: outside a morpheme an
    [S-] tag or a [B-] tag that opens one, inside it [M-] tags up to the
    [E-] tag that closes it, and no morpheme left open at the end. *)
Fixpoint bmes (inside : bool) (labels : list str) : bool :=
  match labels with
  | [] => negb inside
  | s :: labels' =>
      if inside then
        startswith s (lit "M-") && bmes true labels'
        || startswith s (lit "E-") && bmes false labels'
      else
        startswith s (lit "S-") && bmes false labels'
        || startswith s (lit "B-") && bmes true labels'
  end.

(** [s[2:]] *)
Definition slice_2 (s : str) : str := skipn 2 s.

(** ** Invariant of the scorer's loop *)

(** What holds of the counters after [k] rows. *)
Definition counted (c : counters) (k : nat) : Prop :=
  (0 <= TP c /\ 0 <= FP c /\ 0 <= FN c /\ 0 <= equal c <= total c /\
   0 <= corr_words c <= Z.of_nat k)%Z.

(** The counters of a run and of the run with predictions and gold
    sequences exchanged. *)
Definition exchanged (c c' : counters) : Prop :=
  TP c = TP c' /\ FP c = FN c' /\ FN c = FP c' /\
  equal c = equal c' /\ corr_words c = corr_words c'.

(** ** Tables, feature rows and the decoding loop of [classify] *)

(** A dictionary with distinct keys, in the order it was written; [d[k]]
    raises [KeyError] on a missing key. *)
Fixpoint dict_get {K V} (eqk : K -> K -> bool) (d : list (K * V)) (k : K)
  : result V :=
  match d with
  | [] => Raise KeyError
  | (k', v) :: d' => if eqk k' k then Ok v else dict_get eqk d' k
  end.

(** [l[i] = v] for an index from 0 on; out of range it raises. *)
Fixpoint list_set {A} (l : list A) (i : nat) (v : A) : result (list A) :=
  match l, i with
  | [], _ => Raise IndexError
  | _ :: l', 0 => Ok (v :: l')
  | x :: l', S i' => r <- list_set l' i' v ;; Ok (x :: r)
  end.

Definition SPEECH_PARTS : list str :=
  List.map lit
    ["X"; "ADJ"; "ADV"; "INTJ"; "NOUN"; "PROPN"; "VERB"; "ADP"; "AUX";
     "CONJ"; "SCONJ"; "DET"; "NUM"; "PART"; "PRON"; "PUNCT"; "GRND"; "H";
     "R"; "Q"; "SYM"]%string.

(** [{str(s): num for num, s in enumerate(SPEECH_PARTS)}] *)
Definition SPEECH_PART_MAPPING : list (str * nat) :=
  combine SPEECH_PARTS (seq 0 (List.length SPEECH_PARTS)).

Definition build_speech_part_array (sp : str) : result (list Q) :=
  let output := List.map (fun _ => 0%Q) (seq 0 (List.length SPEECH_PARTS)) in
  idx <- dict_get PyStr.eqb SPEECH_PART_MAPPING sp ;;
  list_set output idx 1%Q.

Definition PARTS_MAPPING : list (str * nat) :=
  [(lit "UNKN", 0); (lit "PREF", 1); (lit "ROOT", 2); (lit "SUFF", 3);
   (lit "END", 4); (lit "LINK", 5); (lit "HYPH", 6); (lit "POSTFIX", 7);
   (lit "B-SUFF", 8); (lit "B-PREF", 9); (lit "B-ROOT", 10)].

(** [PARTS_MAPPING[label]]; [None] is no key of it. *)
Definition parts_id (label : pyval) : result nat :=
  match label with
  | Some s => dict_get PyStr.eqb PARTS_MAPPING s
  | None => Raise KeyError
  end.

(* о е а и н т с р в л к м д п у я ы ь г з б ч й х ж ш ю ц щ э ф ъ ё - *)
Definition LETTERS : list (char * nat) :=
  [(1086%N, 1); (1077%N, 2); (1072%N, 3); (1080%N, 4); (1085%N, 5);
   (1090%N, 6); (1089%N, 7); (1088%N, 8); (1074%N, 9); (1083%N, 10);
   (1082%N, 11); (1084%N, 12); (1076%N, 13); (1087%N, 14); (1091%N, 15);
   (1103%N, 16); (1099%N, 17); (1100%N, 18); (1075%N, 19); (1079%N, 20);
   (1073%N, 21); (1095%N, 22); (1081%N, 23); (1093%N, 24); (1078%N, 25);
   (1096%N, 26); (1102%N, 27); (1094%N, 28); (1097%N, 29); (1101%N, 30);
   (1092%N, 31); (1098%N, 32); (1105%N, 33); (45%N, 34)].

(* а и е ё о у ы э ю я *)
Definition VOWELS : list char :=
  [1072; 1080; 1077; 1105; 1086; 1091; 1099; 1101; 1102; 1103]%N.

(** [to_categorical(y, num_classes)] of Keras on one class index [y]: a row
    of [num_classes] zeros with a one at [y]. *)
Definition to_categorical (y num_classes : nat) : result (list Q) :=
  list_set (repeat 0%Q num_classes) y 1%Q.

(** The body of the loop over the letters in [_get_parse_repr]. *)
Definition letter_features (sp0 : str) (letter : char) : result (list Q) :=
  let vovelty := if existsb (N.eqb letter) VOWELS then 1%Q else 0%Q in
  let letter_code :=
      match dict_get N.eqb LETTERS letter with
      | Ok code => code
      | Raise _ => 0
      end in
  categorical <- to_categorical letter_code (List.length LETTERS + 1) ;;
  speech_part <- build_speech_part_array sp0 ;;
  Ok ([vovelty] ++ categorical ++ speech_part).

(** The two arrays [X] and [Y] as lists of rows. *)
Definition _get_parse_repr (word : Word)
  : result (list (list Q) * list (list Q)) :=
  X <- mapM (letter_features (sp word)) (Word_.get_word word) ;;
  labels <- Word_.get_simple_labels word ;;
  Y <- mapM (fun label =>
               id <- parts_id label ;;
               to_categorical id (List.length PARTS_MAPPING)) labels ;;
  Ok (X, Y).

(** [{v: k for k, v in PARTS_MAPPING.items()}] *)
Definition reverse_mapping : list (nat * str) :=
  List.map (fun kv => (snd kv, fst kv)) PARTS_MAPPING.

(** The body of the loop of [classify] on one word: [prediction] is the row
    [pred_class[i]] of class indices that the network gave for it. *)
Definition classify_word (prediction : list nat) (word : Word)
  : result (list str) :=
  let cutted_prediction :=
      firstn (List.length (Word_.get_word word)) prediction in
  raw_parse <- mapM (dict_get Nat.eqb reverse_mapping) cutted_prediction ;;
  _transform_classification (List.map Some raw_parse).

(** The width of the input layer in [_build_model]. *)
Definition input_width : nat :=
  List.length LETTERS + 1 + 1 + List.length SPEECH_PARTS.

(** The class indices of the simple labels of a word. *)
Definition target_ids (word : Word) : result (list nat) :=
  labels <- Word_.get_simple_labels word ;;
  mapM parts_id labels.

(** ** [Word] objects and the list they hold

    [Word.__init__] stores the list it is given, not a copy, and its
    default for [morphemes] is one list object made when the class is
    defined.  The store holds the list objects by address; address 0 is
    that default list. *)

Module Heap.

Definition store := list (list Morpheme).

Record WordObj : Type := mkWordObj {
  morphemes_at : nat;       (* the address of [self.morphemes] *)
  sp_of : str
}.

Definition default_morphemes : nat := 0.

(** The store when the class has been defined. *)
Definition initial : store := [[]].

(** [[]] or a list display: a new list object. *)
Definition new_list (ms : list Morpheme) (st : store) : nat * store :=
  (List.length st, st ++ [ms]).

(** [Word(morphemes, speech_part)]; [None] stands for an argument that is
    not given. *)
Definition Word_init (morphemes : option nat) (speech_part : option str)
  : WordObj :=
  mkWordObj
    (match morphemes with Some a => a | None => default_morphemes end)
    (match speech_part with Some s => s | None => lit "X" end).

(** [list.append] on the object at [a] *)
Fixpoint append_at (a : nat) (m : Morpheme) (st : store) : store :=
  match st, a with
  | [], _ => []
  | l :: st', 0 => (l ++ [m]) :: st'
  | l :: st', S a' => l :: append_at a' m st'
  end.

Definition append_morpheme (w : WordObj) (m : Morpheme) (st : store)
  : store :=
  append_at (morphemes_at w) m st.

(** The value of [w.morphemes] in a store *)
Definition morphemes_of (w : WordObj) (st : store) : list Morpheme :=
  nth (morphemes_at w) st [].

Definition parts_count (w : WordObj) (st : store) : nat :=
  List.length (morphemes_of w st).

End Heap.


(** * Properties *)

(** ** Strings *)

Lemma eqb_refl (s : str) : PyStr.eqb s s = true.
Proof.
  induction s as [|c s IH]; simpl; [reflexivity|].
  now rewrite N.eqb_refl, IH.
Qed.

Lemma eqb_eq (a b : str) : PyStr.eqb a b = true <-> a = b.
Proof.
  split.
  - revert b; induction a as [|x a IH]; intros [|y b] H; simpl in H;
      try discriminate; [reflexivity|].
    apply andb_prop in H as [Hx Hab].
    apply N.eqb_eq in Hx. apply IH in Hab. now subst.
  - intros ->. apply eqb_refl.
Qed.

Lemma eqb_neq (a b : str) : PyStr.eqb a b = false <-> a <> b.
Proof.
  rewrite <- eqb_eq. destruct (PyStr.eqb a b); split; congruence.
Qed.

(** ** The two encodings of one morpheme *)

Lemma length_slice_1_m1 (s : str) :
  List.length (slice_1_m1 s) = List.length s - 2.
Proof.
  unfold slice_1_m1. destruct s as [|c s]; [reflexivity|]. simpl.
  induction s as [|d s IH]; [reflexivity|].
  destruct s as [|e s]; [reflexivity|].
  change (removelast (d :: e :: s)) with (d :: removelast (e :: s)).
  simpl List.length in *. rewrite IH. lia.
Qed.

Lemma middles_ok (v : str) (l : str) :
  fold_right
    (fun (_ : char) (acc : result (list str)) =>
       acc' <- acc ;; x <- add_str (lit "M-") (Some v) ;; Ok (x :: acc'))
    (Ok []) l
  = Ok (repeat (lit "M-" ++ v) (List.length l)).
Proof.
  induction l as [|c l IH]; [reflexivity|].
  cbn [fold_right List.length repeat]. rewrite IH. reflexivity.
Qed.

Lemma get_labels_value (m : Morpheme) (v : str) :
  value (label m) = Some v ->
  Morpheme_.get_labels m = Ok (full_of v (Morpheme_.length m)).
Proof.
  intros Hv. unfold Morpheme_.get_labels, full_of. rewrite Hv.
  destruct (Nat.eqb (Morpheme_.length m) 1); [reflexivity|].
  rewrite middles_ok, length_slice_1_m1. reflexivity.
Qed.

Lemma value_not_NONE (l : MorphemeLabel) :
  l <> NONE -> exists v, value l = Some v.
Proof.
  destruct l; intros H; try (eexists; reflexivity). now elim H.
Qed.

(** ** Full encoding *)

(** C4. The full encoding of a morpheme whose kind is not NONE is the single
    tag [S-kind] when its length is 1, and otherwise [B-kind], one [M-kind]
    per interior letter, then [E-kind]; the word parsed from the line of
    [при:PREF/двор:ROOT/н:SUFF/ый:END] has the ten full labels of the
    scenario. *)
Theorem full_encoding :
  (forall m : Morpheme, label m <> NONE ->
     exists v, value (label m) = Some v /\
       Morpheme_.get_labels m =
         Ok (if Nat.eqb (Morpheme_.length m) 1 then [lit "S-" ++ v]
             else [lit "B-" ++ v]
                    ++ repeat (lit "M-" ++ v) (Morpheme_.length m - 2)
                    ++ [lit "E-" ++ v]))
  /\ exists w, parse_word Scenario.pridvornyj = Ok (Some w) /\
       Word_.get_labels w =
         Ok (List.map lit
               ["B-PREF"; "M-PREF"; "E-PREF"; "B-ROOT"; "M-ROOT"; "M-ROOT";
                "E-ROOT"; "S-SUFF"; "B-END"; "E-END"]%string).
Proof.
  split.
  - intros m Hm. destruct (value_not_NONE Hm) as [v Hv].
    exists v. split; [exact Hv|]. now apply get_labels_value.
  - eexists. split; vm_compute; reflexivity.
Qed.

Lemma full_encoding_witness :
  exists v, value (label (mkMorpheme Scenario.dvor ROOT 3)) = Some v /\
    Morpheme_.get_labels (mkMorpheme Scenario.dvor ROOT 3) =
      Ok (if Nat.eqb (Morpheme_.length (mkMorpheme Scenario.dvor ROOT 3)) 1
          then [lit "S-" ++ v]
          else [lit "B-" ++ v]
                 ++ repeat (lit "M-" ++ v)
                      (Morpheme_.length (mkMorpheme Scenario.dvor ROOT 3) - 2)
                 ++ [lit "E-" ++ v]).
Proof.
  apply (proj1 full_encoding (mkMorpheme Scenario.dvor ROOT 3)).
  simpl. discriminate.
Defined.

Lemma map_const {A B} (v : B) (l : list A) :
  List.map (fun _ => v) l = repeat v (List.length l).
Proof.
  induction l as [|a l IH]; simpl; [reflexivity|]. now rewrite IH.
Qed.

Lemma get_simple_labels_closed (m : Morpheme) :
  Morpheme_.get_simple_labels m
  = Ok (simple_of (label m) (Morpheme_.length m)).
Proof.
  unfold Morpheme_.get_simple_labels, Morpheme_.length, slice_1.
  destruct m as [s l p]; simpl label; simpl part_text.
  assert (Hmap : forall v : pyval,
             (if Nat.ltb 1 (List.length s)
              then List.map (fun _ : char => v) (tl s) else [])
             = repeat v (List.length s - 1)).
  { intros v. destruct s as [|c [|d s]]; try reflexivity.
    change (Nat.ltb 1 (List.length (c :: d :: s))) with true.
    rewrite map_const. reflexivity. }
  destruct l; simpl; try reflexivity; now rewrite Hmap.
Qed.

(** ** Words: concatenation over the morphemes *)

Lemma collect_closed {A} (f : Morpheme -> result (list A))
      (g : Morpheme -> list A) (ms : list Morpheme) :
  Forall (fun m => f m = Ok (g m)) ms ->
  forall acc, Word_.collect f ms acc = Ok (acc ++ flat_map g ms).
Proof.
  induction 1 as [|m ms Hm _ IH]; intros acc; simpl.
  - now rewrite app_nil_r.
  - rewrite Hm. simpl. rewrite IH. now rewrite <- app_assoc.
Qed.

Lemma len_closed (ms : list Morpheme) (k : nat) :
  fold_left (fun s m => s + Morpheme_.length m) ms k
  = k + list_sum (List.map Morpheme_.length ms).
Proof.
  revert k. induction ms as [|m ms IH]; intros k; simpl; [lia|].
  rewrite IH. lia.
Qed.

Lemma length_flat_map {A B} (g : A -> list B) (n : A -> nat) (l : list A) :
  Forall (fun a => List.length (g a) = n a) l ->
  List.length (flat_map g l) = list_sum (List.map n l).
Proof.
  induction 1 as [|a l Ha _ IH]; simpl; [reflexivity|].
  now rewrite length_app, Ha, IH.
Qed.

Lemma length_full_of (v : str) (n : nat) :
  1 <= n -> List.length (full_of v n) = n.
Proof.
  intros Hn. unfold full_of. destruct (Nat.eqb_spec n 1) as [->|Hne].
  - reflexivity.
  - cbn [List.length app]. rewrite length_app, repeat_length. simpl. lia.
Qed.

Lemma length_simple_of (l : MorphemeLabel) (n : nat) :
  1 <= n -> List.length (simple_of l n) = n.
Proof.
  intros Hn. destruct l; simpl; rewrite repeat_length; lia.
Qed.

Lemma get_labels_well_formed (m : Morpheme) :
  well_formed m ->
  Morpheme_.get_labels m = Ok (full_of (name_of m) (Morpheme_.length m)).
Proof.
  intros [_ Hl]. apply get_labels_value. unfold name_of, kind_name.
  destruct (value_not_NONE Hl) as [v ->]. reflexivity.
Qed.

(** C3. For a word whose morphemes all have some text and a kind other than
    NONE, the full labels and the simple labels are both produced and both
    have as many elements as the word has letters. *)
Theorem label_lengths (w : Word) :
  Forall well_formed (morphemes w) ->
  exists full simple,
    Word_.get_labels w = Ok full /\
    Word_.get_simple_labels w = Ok simple /\
    List.length full = List.length simple /\
    List.length simple = Word_.len w.
Proof.
  intros Hw. unfold Word_.get_labels, Word_.get_simple_labels, Word_.len.
  rewrite (@collect_closed _ _
             (fun m => full_of (name_of m) (Morpheme_.length m))).
  2:{ eapply Forall_impl; [|exact Hw]. apply get_labels_well_formed. }
  rewrite (@collect_closed _ _
             (fun m => simple_of (label m) (Morpheme_.length m))).
  2:{ apply Forall_forall. intros m _. apply get_simple_labels_closed. }
  do 2 eexists. repeat split; try reflexivity; simpl app.
  - rewrite (@length_flat_map _ _ _ Morpheme_.length).
    2:{ eapply Forall_impl; [|exact Hw]. intros m [Hn _].
        now apply length_full_of. }
    rewrite (@length_flat_map _ _ _ Morpheme_.length).
    2:{ eapply Forall_impl; [|exact Hw]. intros m [Hn _].
        now apply length_simple_of. }
    reflexivity.
  - rewrite len_closed.
    rewrite (@length_flat_map _ _ _ Morpheme_.length).
    2:{ eapply Forall_impl; [|exact Hw]. intros m [Hn _].
        now apply length_simple_of. }
    reflexivity.
Qed.

Lemma label_lengths_witness :
  exists full simple,
    Word_.get_labels (mkWord [mkMorpheme Scenario.pri PREF 0;
                              mkMorpheme Scenario.n SUFF 3] (lit "X"))
      = Ok full /\
    Word_.get_simple_labels
      (mkWord [mkMorpheme Scenario.pri PREF 0;
               mkMorpheme Scenario.n SUFF 3] (lit "X")) = Ok simple /\
    List.length full = List.length simple /\
    List.length simple =
      Word_.len (mkWord [mkMorpheme Scenario.pri PREF 0;
                         mkMorpheme Scenario.n SUFF 3] (lit "X")).
Proof.
  apply label_lengths. simpl.
  repeat constructor; simpl; try lia; discriminate.
Defined.

(** ** The decoder on lists of strings *)

Lemma split_parts_step (parts : list (list pyval)) (cur : list pyval)
      (prev letter : str) (rest : list pyval) :
  split_parts parts cur (Some prev) (Some letter :: rest)
  = if extends prev letter
    then split_parts parts (cur ++ [Some letter]) (Some letter) rest
    else split_parts (parts ++ [cur]) [Some letter] (Some letter) rest.
Proof.
  cbn [split_parts]. unfold is_lit, extends. cbn [pyval_eqb starts_B].
  destruct (PyStr.eqb letter (lit "SUFF") && PyStr.eqb prev (lit "B-SUFF"));
    [reflexivity|].
  destruct (PyStr.eqb letter (lit "PREF") && PyStr.eqb prev (lit "B-PREF"));
    [reflexivity|].
  destruct (PyStr.eqb letter (lit "ROOT") && PyStr.eqb prev (lit "B-ROOT"));
    [reflexivity|].
  cbn [orb]. destruct (PyStr.eqb letter prev); cbn [negb andb bind];
    [|reflexivity].
  destruct (startswith letter (lit "B-")); reflexivity.
Qed.

Lemma split_parts_groups (rest : list str) :
  forall (parts : list (list pyval)) (cur : list str) (prev : str),
    cur <> [] ->
    exists parts' cur',
      split_parts parts (List.map Some cur) (Some prev) (List.map Some rest)
        = Ok (parts', cur') /\
      cur' <> [] /\
      parts' ++ [cur']
        = parts ++ List.map (List.map Some) (groups prev cur rest).
Proof.
  induction rest as [|letter rest IH]; intros parts cur prev Hcur.
  - exists parts, (List.map Some cur). repeat split.
    destruct cur; [congruence|discriminate].
  - cbn [List.map groups]. rewrite split_parts_step.
    destruct (extends prev letter).
    + change [Some letter] with (List.map (@Some str) [letter]).
      rewrite <- map_app. apply IH. now destruct cur.
    + destruct (IH (parts ++ [List.map Some cur]) [letter] letter)
        as (parts' & cur' & Hs & Hne & Heq); [discriminate|].
      exists parts', cur'. repeat split; try assumption.
      rewrite Heq, <- app_assoc. reflexivity.
Qed.

Lemma groups_nonempty (rest : list str) :
  forall prev cur, cur <> [] -> Forall (fun g => g <> []) (groups prev cur rest).
Proof.
  induction rest as [|letter rest IH]; intros prev cur Hcur; simpl.
  - now constructor.
  - destruct (extends prev letter).
    + apply IH. now destruct cur.
    + constructor; [assumption|]. apply IH. discriminate.
Qed.

Lemma concat_groups (rest : list str) :
  forall prev cur, List.concat (groups prev cur rest) = cur ++ rest.
Proof.
  induction rest as [|letter rest IH]; intros prev cur; simpl.
  - now rewrite app_nil_r.
  - destruct (extends prev letter).
    + rewrite IH, <- app_assoc. reflexivity.
    + simpl. rewrite IH. reflexivity.
Qed.

Lemma strip_B_str (p0 : str) : strip_B (Some p0) = Some (strip_str p0).
Proof.
  unfold strip_B, strip_str, is_lit, pyval_eqb. cbv beta iota zeta.
  destruct (PyStr.eqb p0 (lit "B-PREF")); [reflexivity|].
  destruct (PyStr.eqb p0 (lit "B-SUFF")); [reflexivity|].
  destruct (PyStr.eqb p0 (lit "B-ROOT")); reflexivity.
Qed.

Lemma mapM_map {A B C} (h : A -> B) (g : B -> result C) (f : A -> C)
      (l : list A) :
  Forall (fun a => g (h a) = Ok (f a)) l ->
  mapM g (List.map h l) = Ok (List.map f l).
Proof.
  induction 1 as [|a l Ha _ IH]; simpl; [reflexivity|].
  now rewrite Ha, IH.
Qed.

Lemma mapM_add_str (p : str) (l : list str) :
  mapM (add_str p) (List.map Some l) = Ok (List.map (app p) l).
Proof.
  apply mapM_map. apply Forall_forall. reflexivity.
Qed.

Lemma removelast_map {A B} (f : A -> B) (l : list A) :
  removelast (List.map f l) = List.map f (removelast l).
Proof.
  induction l as [|a l IH]; [reflexivity|].
  destruct l as [|b l]; [reflexivity|].
  change (removelast (List.map f (a :: b :: l)))
    with (f a :: removelast (List.map f (b :: l))).
  now rewrite IH.
Qed.

Lemma last_map_Some (l : list str) :
  l <> [] -> last (List.map Some l) None = Some (last l []).
Proof.
  induction l as [|a l IH]; [congruence|]. intros _.
  destruct l as [|b l]; [reflexivity|].
  change (last (List.map Some (a :: b :: l)) None)
    with (last (List.map Some (b :: l)) None).
  rewrite IH by discriminate. reflexivity.
Qed.

Lemma relabel_strs (part : list str) :
  part <> [] -> relabel (List.map Some part) = Ok (relabel_str part).
Proof.
  destruct part as [|p0 others]; [congruence|]. intros _.
  unfold relabel. cbn [List.map]. rewrite strip_B_str.
  destruct others as [|o others]; [reflexivity|].
  change (Nat.eqb (List.length (Some p0 :: List.map Some (o :: others))) 1)
    with false.
  cbn [add_str bind].
  rewrite last_map_Some by discriminate. cbn [add_str bind].
  rewrite removelast_map.
  rewrite mapM_add_str. reflexivity.
Qed.

(** The decoder on a non-empty list of strings, in closed form. *)
Lemma transform_strs (first : str) (rest : list str) :
  _transform_classification (List.map Some (first :: rest))
  = Ok (List.concat (List.map relabel_str (groups first [first] rest))).
Proof.
  unfold _transform_classification. cbn [List.map].
  destruct (@split_parts_groups rest [] [first] first)
    as (parts' & cur' & Hs & Hne & Heq); [discriminate|].
  change [Some first] with (List.map (@Some str) [first]).
  rewrite Hs. cbn [bind].
  destruct cur' as [|c cur']; [congruence|].
  rewrite Heq. cbn [app].
  rewrite (@mapM_map _ _ _ (List.map Some) relabel relabel_str);
    [reflexivity|].
  eapply Forall_impl; [|apply (@groups_nonempty rest first [first])].
  - intros g Hg. now apply relabel_strs.
  - discriminate.
Qed.

Lemma startswith_app (p s : str) : startswith (p ++ s) p = true.
Proof.
  induction p as [|c p IH]; simpl; [now destruct s|].
  now rewrite N.eqb_refl, IH.
Qed.

Lemma length_removelast_cons {A} (a : A) (l : list A) :
  List.length (removelast (a :: l)) = List.length l.
Proof.
  revert a. induction l as [|b l IH]; intros a; [reflexivity|].
  change (removelast (a :: b :: l)) with (a :: removelast (b :: l)).
  cbn [List.length]. now rewrite IH.
Qed.

Lemma length_relabel_str (part : list str) :
  List.length (relabel_str part) = List.length part.
Proof.
  destruct part as [|p0 [|o others]]; try reflexivity.
  unfold relabel_str.
  rewrite !length_app, length_map, length_removelast_cons.
  cbn [List.length]. lia.
Qed.

Lemma positional_relabel_str (part : list str) :
  Forall (fun s => positional s = true) (relabel_str part).
Proof.
  assert (HS : forall x, positional (lit "S-" ++ x) = true).
  { intros x. unfold positional. now rewrite startswith_app. }
  assert (HB : forall x, positional (lit "B-" ++ x) = true).
  { intros x. unfold positional. rewrite (startswith_app (lit "B-")).
    now rewrite orb_true_r. }
  assert (HM : forall x, positional (lit "M-" ++ x) = true).
  { intros x. unfold positional. rewrite (startswith_app (lit "M-")).
    now rewrite !orb_true_r. }
  assert (HE : forall x, positional (lit "E-" ++ x) = true).
  { intros x. unfold positional. rewrite (startswith_app (lit "E-")).
    now rewrite !orb_true_r. }
  destruct part as [|p0 [|o others]]; unfold relabel_str.
  - constructor.
  - constructor; [apply HS|constructor].
  - apply Forall_app. split; [constructor; [apply HB|constructor]|].
    apply Forall_app. split; [|constructor; [apply HE|constructor]].
    apply Forall_forall. intros x Hx. apply in_map_iff in Hx.
    destruct Hx as (y & <- & _). apply HM.
Qed.

Lemma length_concat_relabel (G : list (list str)) :
  List.length (List.concat (List.map relabel_str G))
  = List.length (List.concat G).
Proof.
  induction G as [|g G IH]; [reflexivity|].
  simpl. now rewrite !length_app, length_relabel_str, IH.
Qed.

(** C10. On every non-empty list of strings the decoder returns a list of
    the same length, each element of which starts with [S-], [B-], [M-] or
    [E-]. *)
Theorem decoder_output_shape (parse : list str) :
  parse <> [] ->
  exists out,
    _transform_classification (List.map Some parse) = Ok out /\
    List.length out = List.length parse /\
    Forall (fun s => positional s = true) out.
Proof.
  destruct parse as [|first rest]; [congruence|]. intros _.
  eexists. split; [apply transform_strs|]. split.
  - rewrite length_concat_relabel, concat_groups. reflexivity.
  - apply Forall_concat. apply Forall_forall. intros l Hl.
    apply in_map_iff in Hl. destruct Hl as (g & <- & _).
    apply positional_relabel_str.
Qed.

Lemma decoder_output_shape_witness :
  exists out,
    _transform_classification
      (List.map Some [lit "ROOT"; lit "B-SUFF"; lit "END"; lit "END";
                      lit "SUFF"]) = Ok out /\
    List.length out
      = List.length [lit "ROOT"; lit "B-SUFF"; lit "END"; lit "END";
                     lit "SUFF"] /\
    Forall (fun s => positional s = true) out.
Proof.
  apply decoder_output_shape. discriminate.
Defined.

(** ** Decoding the simple labels of a word *)

Lemma extends_same_kind (l : MorphemeLabel) (prev : str) :
  l <> NONE -> closes_kind l prev -> extends prev (kind_name l) = true.
Proof.
  intros Hl [->|[Hb ->]]; destruct l; try discriminate Hb;
    try reflexivity; now elim Hl.
Qed.

Lemma extends_next_kind (l l' : MorphemeLabel) (prev : str) :
  l <> NONE -> l' <> NONE -> closes_kind l prev ->
  (l = l' -> opens_with_B l = true) ->
  extends prev (head_label l') = false.
Proof.
  intros Hl Hl' Hc Hsep.
  destruct l; try (now elim Hl);
    destruct l'; try (now elim Hl');
    try (specialize (Hsep eq_refl); discriminate Hsep);
    destruct Hc as [->|[Hb ->]]; try discriminate Hb; reflexivity.
Qed.

Lemma groups_run (l : MorphemeLabel) (j : nat) :
  l <> NONE ->
  forall (prev : str) (cur rest : list str),
    closes_kind l prev ->
    exists prev',
      closes_kind l prev' /\
      groups prev cur (repeat (kind_name l) j ++ rest)
        = groups prev' (cur ++ repeat (kind_name l) j) rest.
Proof.
  intros Hl. induction j as [|j IH]; intros prev cur rest Hc.
  - exists prev. split; [assumption|]. simpl. now rewrite app_nil_r.
  - cbn [repeat app groups]. rewrite (extends_same_kind Hl Hc).
    destruct (IH (kind_name l) (cur ++ [kind_name l]) rest) as (p & Hp & E).
    { now left. }
    exists p. split; [assumption|]. rewrite E, <- app_assoc. reflexivity.
Qed.

Lemma groups_morphemes (ms : list Morpheme) :
  forall (m : Morpheme) (prev : str) (cur : list str) (j : nat),
    well_formed m -> Forall well_formed ms -> separable (m :: ms) ->
    closes_kind (label m) prev ->
    groups prev cur
           (repeat (kind_name (label m)) j ++ flat_map simple_strs ms)
    = (cur ++ repeat (kind_name (label m)) j) :: List.map simple_strs ms.
Proof.
  induction ms as [|m' ms IH]; intros m prev cur j Hm Hms Hsep Hc.
  - destruct (@groups_run (label m) j (proj2 Hm) prev cur [] Hc)
      as (p & _ & E).
    simpl flat_map. rewrite E. reflexivity.
  - inversion Hms as [|? ? Hm' Hms']; subst.
    destruct Hsep as [Hadj Hsep].
    destruct (@groups_run (label m) j (proj2 Hm) prev cur
                (flat_map simple_strs (m' :: ms)) Hc) as (p & Hp & E).
    rewrite E. cbn [flat_map List.map]. unfold simple_strs at 1.
    cbn [app groups].
    rewrite (@extends_next_kind (label m) (label m') p
               (proj2 Hm) (proj2 Hm') Hp Hadj).
    f_equal. rewrite (IH m'); try assumption.
    + reflexivity.
    + unfold closes_kind, head_label.
      destruct (opens_with_B (label m')); [right|left]; auto.
Qed.

Lemma removelast_repeat {A} (a : A) (k : nat) :
  removelast (repeat a (S k)) = repeat a k.
Proof.
  induction k as [|k IH]; [reflexivity|].
  change (removelast (repeat a (S (S k))))
    with (a :: removelast (repeat a (S k))).
  now rewrite IH.
Qed.

Lemma last_repeat {A} (a d : A) (k : nat) : last (repeat a (S k)) d = a.
Proof.
  induction k as [|k IH]; [reflexivity|].
  change (last (repeat a (S (S k))) d) with (last (repeat a (S k)) d).
  exact IH.
Qed.

Lemma strip_head_label (l : MorphemeLabel) :
  l <> NONE -> strip_str (head_label l) = kind_name l.
Proof.
  destruct l; intros _; reflexivity.
Qed.

Lemma relabel_simple_strs (m : Morpheme) :
  well_formed m ->
  relabel_str (simple_strs m) = full_of (name_of m) (Morpheme_.length m).
Proof.
  intros [Hn Hl]. unfold simple_strs, full_of, name_of.
  destruct (Morpheme_.length m) as [|[|k]]; [lia| |].
  - cbn [Nat.sub repeat relabel_str Nat.eqb].
    now rewrite strip_head_label.
  - replace (S (S k) - 1) with (S k) by lia.
    replace (S (S k) - 2) with k by lia.
    change (Nat.eqb (S (S k)) 1) with false.
    unfold relabel_str.
    change (repeat (kind_name (label m)) (S k))
      with (kind_name (label m) :: repeat (kind_name (label m)) k) at 1.
    cbv iota. rewrite strip_head_label by assumption.
    rewrite removelast_repeat, last_repeat, map_repeat. reflexivity.
Qed.

Lemma simple_of_strs (m : Morpheme) :
  well_formed m ->
  simple_of (label m) (Morpheme_.length m) = List.map Some (simple_strs m).
Proof.
  intros [Hn Hl]. unfold simple_strs.
  destruct (Morpheme_.length m) as [|k]; [lia|].
  rewrite Nat.sub_succ, Nat.sub_0_r.
  destruct (label m); try (now elim Hl); cbn [simple_of List.map];
    rewrite ?Nat.sub_succ, ?Nat.sub_0_r, ?map_repeat; reflexivity.
Qed.

Lemma flat_map_ext_Forall {A B} (f g : A -> list B) (l : list A) :
  Forall (fun a => f a = g a) l -> flat_map f l = flat_map g l.
Proof.
  induction 1 as [|a l Ha _ IH]; simpl; [reflexivity|].
  now rewrite Ha, IH.
Qed.

Lemma map_flat_map {A B C} (h : B -> C) (f : A -> list B) (l : list A) :
  List.map h (flat_map f l) = flat_map (fun a => List.map h (f a)) l.
Proof.
  induction l as [|a l IH]; simpl; [reflexivity|].
  now rewrite map_app, IH.
Qed.

(** What the code does on the simple labels of a word: *)
Lemma get_simple_labels_strs (w : Word) :
  Forall well_formed (morphemes w) ->
  Word_.get_simple_labels w
  = Ok (List.map Some (flat_map simple_strs (morphemes w))).
Proof.
  intros Hw. unfold Word_.get_simple_labels.
  rewrite (@collect_closed _ _
             (fun m => simple_of (label m) (Morpheme_.length m))).
  2:{ apply Forall_forall. intros m _. apply get_simple_labels_closed. }
  cbn [app]. rewrite map_flat_map. f_equal.
  apply flat_map_ext_Forall.
  eapply Forall_impl; [|exact Hw]. apply simple_of_strs.
Qed.

Lemma get_labels_full (w : Word) :
  Forall well_formed (morphemes w) ->
  Word_.get_labels w
  = Ok (flat_map (fun m => full_of (name_of m) (Morpheme_.length m))
                 (morphemes w)).
Proof.
  intros Hw. unfold Word_.get_labels.
  rewrite (@collect_closed _ _
             (fun m => full_of (name_of m) (Morpheme_.length m))).
  - reflexivity.
  - eapply Forall_impl; [|exact Hw]. apply get_labels_well_formed.
Qed.

(** C1, as the code has it. For a word with at least one morpheme, each
    with some text and a kind other than NONE, in which no two neighbouring
    morphemes share a kind outside PREF, ROOT and SUFF, decoding the simple
    labels gives exactly the full labels. *)
Theorem round_trip (w : Word) :
  morphemes w <> [] ->
  Forall well_formed (morphemes w) ->
  separable (morphemes w) ->
  exists full,
    Word_.get_labels w = Ok full /\
    (s <- Word_.get_simple_labels w ;; _transform_classification s) = Ok full.
Proof.
  intros Hne Hw Hsep. eexists. split; [now apply get_labels_full|].
  rewrite get_simple_labels_strs by assumption. cbn [bind].
  destruct (morphemes w) as [|m ms]; [congruence|].
  inversion Hw as [|? ? Hm Hms]; subst.
  cbn [flat_map]. unfold simple_strs at 1. cbn [app].
  rewrite transform_strs.
  rewrite (@groups_morphemes ms m); try assumption.
  2:{ unfold closes_kind, head_label.
      destruct (opens_with_B (label m)); [right|left]; auto. }
  f_equal. cbn [List.map List.concat app].
  fold (simple_strs m). rewrite (relabel_simple_strs Hm). f_equal.
  clear Hsep Hw Hne. induction Hms as [|a l Ha _ IH]; [reflexivity|].
  cbn [List.map List.concat flat_map].
  now rewrite (relabel_simple_strs Ha), IH.
Qed.

Lemma round_trip_witness :
  exists full,
    Word_.get_labels
      (mkWord [mkMorpheme Scenario.pri PREF 0; mkMorpheme Scenario.dvor ROOT 3;
               mkMorpheme Scenario.n SUFF 7; mkMorpheme Scenario.yj END 8]
              (lit "X")) = Ok full /\
    (s <- Word_.get_simple_labels
            (mkWord [mkMorpheme Scenario.pri PREF 0;
                     mkMorpheme Scenario.dvor ROOT 3;
                     mkMorpheme Scenario.n SUFF 7;
                     mkMorpheme Scenario.yj END 8] (lit "X")) ;;
     _transform_classification s) = Ok full.
Proof.
  apply round_trip; simpl.
  - discriminate.
  - repeat constructor; simpl; try lia; discriminate.
  - repeat split; discriminate.
Defined.

(** C1, as the claim states it, fails: two neighbouring endings satisfy
    every invariant of the data model, and their simple labels decode to
    one two-letter ending. *)
Lemma round_trip_fails_on_equal_neighbours :
  Forall well_formed (morphemes two_endings) /\
  Forall (fun m => part_text m <> [] /\ label m <> NONE)
         (morphemes two_endings) /\
  List.map begin_pos (morphemes two_endings) = [0; 1]%Z /\
  List.map Morpheme_.end_pos (morphemes two_endings) = [1; 2]%Z /\
  Word_.get_labels two_endings = Ok [lit "S-END"; lit "S-END"] /\
  (s <- Word_.get_simple_labels two_endings ;; _transform_classification s)
    = Ok [lit "B-END"; lit "E-END"] /\
  (s <- Word_.get_simple_labels two_endings ;; _transform_classification s)
    <> Word_.get_labels two_endings.
Proof.
  repeat split; try (vm_compute; reflexivity);
    try (repeat constructor; simpl; try lia; discriminate).
Qed.

(** ** Splitting *)

Lemma split_nonempty (c : char) (s : str) : split c s <> [].
Proof.
  destruct s as [|x s]; simpl; [discriminate|].
  destruct (N.eqb x c); [discriminate|].
  destruct (split c s); discriminate.
Qed.

Lemma length_split (c : char) (s : str) :
  List.length (split c s) = count c s + 1.
Proof.
  induction s as [|x s IH]; [reflexivity|]. simpl.
  destruct (N.eqb x c); simpl; [now rewrite IH|].
  pose proof (split_nonempty c s) as Hne.
  destruct (split c s) as [|h t]; [congruence|]. exact IH.
Qed.

Lemma join_cons (sep s : str) (l : list str) :
  l <> [] -> join sep (s :: l) = s ++ sep ++ join sep l.
Proof.
  destruct l; [congruence|reflexivity].
Qed.

Lemma join_cons_head (sep : str) (x : char) (h : str) (t : list str) :
  join sep ((x :: h) :: t) = x :: join sep (h :: t).
Proof.
  destruct t; reflexivity.
Qed.

Lemma join_split (c : char) (s : str) : join [c] (split c s) = s.
Proof.
  induction s as [|x s IH]; [reflexivity|]. simpl split.
  pose proof (split_nonempty c s) as Hne.
  destruct (N.eqb_spec x c) as [->|Hx].
  - rewrite join_cons by assumption. now rewrite IH.
  - destruct (split c s) as [|h t]; [congruence|].
    now rewrite join_cons_head, IH.
Qed.

Lemma label_of_name_member (name : str) (l : MorphemeLabel) :
  label_of_name name = Ok l -> name = member_name l.
Proof.
  unfold label_of_name, all_labels. cbn [find fst snd].
  repeat match goal with
         | |- context [PyStr.eqb ?a name] =>
             destruct (PyStr.eqb a name) eqn:E;
             [apply eqb_eq in E; cbv beta iota; cbn [snd];
              intros [= <-]; now rewrite <- E|clear E]
         end.
  discriminate.
Qed.

(** ** Offsets handed out by [parse_word] *)

Lemma parse_morpheme_token (part : str) (gi : Z) (m : Morpheme) :
  parse_morpheme part gi = Ok m ->
  begin_pos m = gi /\
  part = part_text m ++ [colon] ++ member_name (label m).
Proof.
  unfold parse_morpheme. pose proof (join_split colon part) as Hj.
  destruct (split colon part) as [|text [|name [|x t]]]; try discriminate.
  destruct (label_of_name name) as [l|e] eqn:El; [|discriminate].
  cbn [bind]. intros [= <-]. cbn [begin_pos part_text label].
  apply label_of_name_member in El. subst name.
  split; [reflexivity|]. now rewrite <- Hj.
Qed.

Lemma parse_parts_offsets (parts : list str) :
  forall (acc : list Morpheme) (gi : Z) (ms : list Morpheme),
    parse_parts parts acc gi = Ok ms ->
    exists ms', ms = acc ++ ms' /\ token_offsets gi ms' /\
                List.length ms' = List.length parts.
Proof.
  induction parts as [|part parts IH]; intros acc gi ms H; simpl in H.
  - inversion H; subst. exists []. rewrite app_nil_r. simpl. auto.
  - destruct (parse_morpheme part gi) as [m|e] eqn:Em; [|discriminate].
    cbn [bind] in H. apply IH in H. destruct H as (ms' & -> & Hoff & Hlen).
    apply parse_morpheme_token in Em. destruct Em as [Hb Hp].
    exists (m :: ms'). rewrite <- app_assoc.
    split; [reflexivity|]. split; [|simpl; now rewrite Hlen].
    cbn [token_offsets]. split; [assumption|].
    replace (Morpheme_.length m + 1 + List.length (member_name (label m)))
      with (List.length part); [assumption|].
    rewrite Hp, !length_app. unfold Morpheme_.length. simpl. lia.
Qed.

(** Every parsed word has its morphemes at the offsets of [token_offsets],
    and at least one morpheme. *)
Lemma parse_word_offsets (line : str) (w : Word) :
  parse_word line = Ok (Some w) ->
  token_offsets 0 (morphemes w) /\ morphemes w <> [].
Proof.
  unfold parse_word.
  destruct (split_fields line) as [[[wordform word_parts] sp0]|e];
    [|discriminate].
  cbn [bind]. destruct (_ || _); [discriminate|].
  destruct (parse_parts (split slash word_parts) [] 0) as [ms|e] eqn:E;
    [|discriminate].
  cbn [bind]. intros [= <-]. cbn [morphemes].
  apply parse_parts_offsets in E. destruct E as (ms' & -> & Hoff & Hlen).
  cbn [app]. split; [assumption|].
  pose proof (split_nonempty slash word_parts).
  destruct ms'; [|discriminate]. destruct (split slash word_parts);
    [congruence|discriminate].
Qed.

(** Between two neighbours of a parsed word lies the colon and the kind
    name of the first: the next begins after the end of the first. *)
Lemma token_offsets_gap (gi : Z) (m m' : Morpheme) (ms : list Morpheme) :
  token_offsets gi (m :: m' :: ms) ->
  (begin_pos m' =
     Morpheme_.end_pos m + 1
       + Z.of_nat (List.length (member_name (label m))))%Z /\
  (Morpheme_.end_pos m + 4 <= begin_pos m')%Z.
Proof.
  cbn [token_offsets]. intros (Hb & Hb' & _). unfold Morpheme_.end_pos.
  rewrite Hb, Hb'. split; [lia|].
  assert (3 <= List.length (member_name (label m))).
  { destruct (label m); simpl; lia. }
  lia.
Qed.

(** C2, on the code. The word parsed from the line of
    [при:PREF/двор:ROOT/н:SUFF/ый:END] has its first morpheme at offset 0,
    but the next ones begin at 8, 17 and 23, where the ones before them end
    at 3, 12 and 18: the loop advances by the length of the whole token
    [text:KIND] and not by the length of the text. *)
Theorem parsed_offsets_of_scenario :
  exists w,
    parse_word Scenario.pridvornyj = Ok (Some w) /\
    List.map begin_pos (morphemes w) = [0; 8; 17; 23]%Z /\
    List.map Morpheme_.end_pos (morphemes w) = [3; 12; 18; 25]%Z.
Proof.
  eexists. repeat split; vm_compute; reflexivity.
Qed.

(** ** The guard on the word form *)

Lemma split_fields_wordform (line wordform word_parts sp0 : str) :
  split_fields line = Ok (wordform, word_parts, sp0) ->
  nth_error (split tab line) 0 = Some wordform.
Proof.
  unfold split_fields.
  destruct (Nat.eqb (count tab line) 3);
    [|destruct (Nat.eqb (count tab line) 2)];
    destruct (split tab line) as [|a [|b [|c [|d [|x t]]]]];
    try discriminate.
  - destruct (class_of d); [|discriminate]. now intros [= <- _ _].
  - now intros [= <- _ _].
  - now intros [= <- _ _].
Qed.

(** The lines that [split_fields] accepts, by their number of tabs. *)
Lemma split_fields_ok (line : str) :
  count tab line = 1 \/ count tab line = 2 \/
  (count tab line = 3 /\
   exists sp0, class_of (nth 3 (split tab line) []) = Ok sp0) ->
  exists wordform word_parts sp0,
    split_fields line = Ok (wordform, word_parts, sp0).
Proof.
  unfold split_fields. pose proof (length_split tab line) as Hlen.
  intros [H|[H|[H [sp0 Hc]]]]; rewrite H in *; cbn [Nat.eqb];
    destruct (split tab line) as [|a [|b [|c [|d [|x t]]]]];
    simpl in Hlen; try lia.
  - now eauto.
  - now eauto.
  - cbn [nth] in Hc. rewrite Hc. cbn [bind]. now eauto.
Qed.

(** C9, as the code has it. A line whose word form (its first tab-separated
    field) contains a colon or a slash never yields a [Word]; [parse_word]
    returns [None] for it whenever the fields of the line can be taken
    apart: two or three fields, or four fields with a class among ADJ,
    VERB, NOUN, GRND, ADV and PART. *)
Theorem wordform_guard (line wordform : str) :
  nth_error (split tab line) 0 = Some wordform ->
  contains [colon] wordform || contains [slash] wordform = true ->
  (forall w, parse_word line <> Ok (Some w)) /\
  (count tab line = 1 \/ count tab line = 2 \/
   (count tab line = 3 /\
    exists sp0, class_of (nth 3 (split tab line) []) = Ok sp0) ->
   parse_word line = Ok None).
Proof.
  intros Hw Hc.
  assert (Hguard : forall wf wp sp0,
             split_fields line = Ok (wf, wp, sp0) ->
             parse_word line = Ok None).
  { intros wf wp sp0 Hf. unfold parse_word. rewrite Hf. cbn [bind].
    apply split_fields_wordform in Hf. rewrite Hw in Hf.
    injection Hf as <-. now rewrite Hc. }
  split.
  - intros w Habs.
    destruct (split_fields line) as [[[wf wp] sp0]|e] eqn:Hf.
    + rewrite (Hguard _ _ _ eq_refl) in Habs. discriminate.
    + unfold parse_word in Habs. rewrite Hf in Habs. discriminate.
  - intros Hn. destruct (split_fields_ok line Hn) as (wf & wp & sp0 & Hf).
    eapply Hguard, Hf.
Qed.

Lemma wordform_guard_witness :
  (forall w, parse_word colon_in_wordform <> Ok (Some w)) /\
  (count tab colon_in_wordform = 1 \/ count tab colon_in_wordform = 2 \/
   (count tab colon_in_wordform = 3 /\
    exists sp0,
      class_of (nth 3 (split tab colon_in_wordform) []) = Ok sp0) ->
   parse_word colon_in_wordform = Ok None).
Proof.
  apply (@wordform_guard colon_in_wordform (lit "wordA:wordB"));
    vm_compute; reflexivity.
Defined.

(** C9, as the claim states it, fails: on a four-field line the class is
    looked up before the word form is examined, and a line with a colon in
    its word form and an unknown class raises the unknown-class exception
    instead of returning [None]. *)
Lemma wordform_guard_after_class_lookup :
  nth_error (split tab colon_and_unknown_class) 0 = Some (lit "wordA:wordB") /\
  contains [colon] (lit "wordA:wordB") = true /\
  parse_word colon_and_unknown_class = Raise (UnknownClass (lit "INTJ")) /\
  parse_word colon_and_unknown_class <> Ok None.
Proof.
  repeat split; try (vm_compute; reflexivity). vm_compute. discriminate.
Qed.

(** ** Boundaries and the counters of one word *)

Lemma str_in_In (s : str) (l : list str) : str_in s l = true <-> In s l.
Proof.
  unfold str_in. rewrite existsb_exists. split.
  - intros (x & Hx & E). apply eqb_eq in E. now subst.
  - intros H. exists s. split; [assumption|apply eqb_refl].
Qed.

Lemma SE_value : SE = SE_listed.
Proof. vm_compute. reflexivity. Qed.

Lemma boundaries_of_spec (labels : list str) (i : nat) :
  In i (boundaries_of labels) <->
  i < List.length labels /\ In (nth i labels []) SE_listed.
Proof.
  unfold boundaries_of. rewrite filter_In, in_seq, str_in_In, SE_value.
  intuition lia.
Qed.

Lemma NoDup_boundaries_of (labels : list str) : NoDup (boundaries_of labels).
Proof.
  unfold boundaries_of. apply NoDup_filter, seq_NoDup.
Qed.

Lemma common_spec (G P : list nat) (i : nat) :
  In i (filter (fun x => existsb (Nat.eqb x) P) G) <-> In i G /\ In i P.
Proof.
  rewrite filter_In, existsb_exists. split.
  - intros (HG & x & Hx & E). apply Nat.eqb_eq in E. now subst.
  - intros (HG & HP). split; [assumption|]. exists i.
    split; [assumption|apply Nat.eqb_refl].
Qed.

(** ** The loop over the data set *)

Lemma run_loop_app (rows1 rows2 : list (list str * list str * Word))
      (c : counters) :
  run_loop (rows1 ++ rows2) c = run_loop rows2 (run_loop rows1 c).
Proof.
  unfold run_loop. apply fold_left_app.
Qed.

Lemma run_loop_sums (rows : list (list str * list str * Word)) :
  forall c : counters,
    (TP (run_loop rows c) = TP c + sum_rows word_TP rows /\
     FN (run_loop rows c) = FN c + sum_rows word_FN rows /\
     FP (run_loop rows c) = FP c + sum_rows word_FP rows)%Z.
Proof.
  induction rows as [|[[corr pred] w] rows IH]; intros c.
  - simpl. lia.
  - change (run_loop (((corr, pred), w) :: rows) c)
      with (run_loop rows (step c corr pred)).
    destruct (IH (step c corr pred)) as (HT & HN & HP).
    rewrite HT, HN, HP. unfold sum_rows, word_TP, word_FN, word_FP.
    cbn [fold_right fst snd step TP FN FP counters0]. lia.
Qed.

(** C5, as the code has it. The boundary positions of a label sequence are
    exactly the indices below its own length whose label is one of S-ROOT,
    S-PREF, S-SUFF, S-END, S-LINK, S-None, E-ROOT, E-PREF, E-SUFF, E-END,
    E-LINK, E-None; one word adds |G ∩ P| to TP, |G| - |G ∩ P| to FN and
    |P| - |G ∩ P| to FP; over a data set the three counters are the sums of
    what the words add, and the ratios are computed from these sums; gold
    boundaries {2,5} against predicted boundaries {2,6} add 1 to each. *)
Theorem boundary_counts
        (corr pred : list str) (c : counters)
        (rows : list (list str * list str * Word))
        (predicted_targets targets : list (list str)) (words : list Word)
        (verbose : bool) :
  (forall i, In i (boundaries_of corr) <->
             i < List.length corr /\ In (nth i corr []) SE_listed) /\
  (forall i, In i (boundaries_of pred) <->
             i < List.length pred /\ In (nth i pred []) SE_listed) /\
  (exists common : list nat,
      NoDup (boundaries_of corr) /\ NoDup (boundaries_of pred) /\
      NoDup common /\
      (forall i, In i common <->
                 In i (boundaries_of corr) /\ In i (boundaries_of pred)) /\
      TP (step c corr pred) = (TP c + Z.of_nat (List.length common))%Z /\
      FN (step c corr pred)
        = (FN c + (Z.of_nat (List.length (boundaries_of corr))
                   - Z.of_nat (List.length common)))%Z /\
      FP (step c corr pred)
        = (FP c + (Z.of_nat (List.length (boundaries_of pred))
                   - Z.of_nat (List.length common)))%Z) /\
  (TP (run_loop rows c) = TP c + sum_rows word_TP rows /\
   FN (run_loop rows c) = FN c + sum_rows word_FN rows /\
   FP (run_loop rows c) = FP c + sum_rows word_FP rows)%Z /\
  measure_quality predicted_targets targets words verbose
    = (results <- results_of
                    (run_loop (zip3 targets predicted_targets words) counters0)
                    (List.length targets) ;;
       Ok (combine metrics results)) /\
  (boundaries_of corr = [2; 5] -> boundaries_of pred = [2; 6] ->
   word_TP corr pred = 1%Z /\ word_FN corr pred = 1%Z /\
   word_FP corr pred = 1%Z).
Proof.
  split; [intros i; apply boundaries_of_spec|].
  split; [intros i; apply boundaries_of_spec|].
  split.
  { exists (filter (fun x => existsb (Nat.eqb x) (boundaries_of pred))
                   (boundaries_of corr)).
    split; [apply NoDup_boundaries_of|].
    split; [apply NoDup_boundaries_of|].
    split; [apply NoDup_filter, NoDup_boundaries_of|].
    split; [intros i; apply common_spec|].
    repeat split. }
  split; [apply run_loop_sums|].
  split; [reflexivity|].
  intros HG HP. unfold word_TP, word_FN, word_FP, step.
  rewrite HG, HP. repeat split.
Qed.

Lemma boundary_counts_witness :
  word_TP gold_2_5 pred_2_6 = 1%Z /\ word_FN gold_2_5 pred_2_6 = 1%Z /\
  word_FP gold_2_5 pred_2_6 = 1%Z.
Proof.
  apply (boundary_counts gold_2_5 pred_2_6 counters0 [] [] [] [] false);
    vm_compute; reflexivity.
Defined.

(** C5, as the claim states it, fails on the spelling of the NONE tags:
    the code's set has [S-None], so the label [S-NONE] of the claim marks
    no boundary, and the label [S-None], which the claim's set lacks,
    marks one. *)
Lemma boundary_set_spelling :
  In (lit "S-NONE") SE_in_spec /\
  ~ In 0 (boundaries_of [lit "S-NONE"]) /\
  In 0 (boundaries_of [lit "S-None"]) /\
  ~ In (lit "S-None") SE_in_spec.
Proof.
  split; [vm_compute; tauto|].
  split; [vm_compute; tauto|].
  split; [vm_compute; tauto|].
  rewrite <- str_in_In. vm_compute. discriminate.
Qed.

(** ** Division *)

Lemma truediv_zero (a b : Q) :
  (b == 0)%Q -> truediv a b = Raise ZeroDivisionError.
Proof.
  intros H. unfold truediv. apply Qeq_bool_iff in H. now rewrite H.
Qed.

Lemma truediv_nonzero (a b : Q) :
  ~ (b == 0)%Q -> truediv a b = Ok (Qred (a / b)).
Proof.
  intros H. unfold truediv.
  destruct (Qeq_bool b 0) eqn:E; [|reflexivity].
  apply Qeq_bool_iff in E. contradiction.
Qed.

Lemma truediv_one (a b : Q) :
  ~ (b == 0)%Q -> (a == b)%Q -> truediv a b = Ok 1%Q.
Proof.
  intros Hb Hab. rewrite truediv_nonzero by assumption. f_equal.
  change 1%Q with (Qred 1). apply Qred_complete.
  rewrite Hab. now apply Qmult_inv_r.
Qed.

Lemma truediv_raise (a b : Q) (e : exn) :
  truediv a b = Raise e -> e = ZeroDivisionError.
Proof.
  unfold truediv. destruct (Qeq_bool b 0); [|discriminate].
  now intros [= <-].
Qed.

Lemma inject_Z_nonzero (z : Z) : z <> 0%Z -> ~ (inject_Z z == 0)%Q.
Proof.
  intros Hz H. apply Hz. unfold Qeq in H. simpl in H. lia.
Qed.

Lemma inject_Z_zero (z : Z) : z = 0%Z -> (inject_Z z == 0)%Q.
Proof.
  intros ->. reflexivity.
Qed.

(** ** A prediction equal to its gold sequence *)

Lemma filter_all {A} (f : A -> bool) (l : list A) :
  (forall x, In x l -> f x = true) -> filter f l = l.
Proof.
  induction l as [|a l IH]; intros H; simpl; [reflexivity|].
  rewrite (H a (or_introl eq_refl)). f_equal. apply IH.
  intros x Hx. apply H. now right.
Qed.

Lemma common_self (G : list nat) :
  filter (fun x => existsb (Nat.eqb x) G) G = G.
Proof.
  apply filter_all. intros x Hx. apply existsb_exists. exists x.
  split; [assumption|apply Nat.eqb_refl].
Qed.

Lemma labels_eqb_refl (l : list str) : labels_eqb l l = true.
Proof.
  induction l as [|s l IH]; simpl; [reflexivity|].
  now rewrite eqb_refl, IH.
Qed.

Lemma fold_add_shift (l : list Z) (k : Z) :
  fold_left Z.add l k = (k + fold_left Z.add l 0)%Z.
Proof.
  revert k. induction l as [|z l IH]; intros k; simpl; [lia|].
  rewrite (IH (k + z)%Z), (IH z). lia.
Qed.

Lemma equal_count_self (l : list str) :
  equal_count l l = Z.of_nat (List.length l).
Proof.
  unfold equal_count. induction l as [|s l IH]; [reflexivity|].
  cbn [combine List.map fold_left fst snd]. rewrite eqb_refl.
  rewrite fold_add_shift, IH. cbn [List.length]. lia.
Qed.

Lemma length_boundaries_of (l : list str) :
  List.length (boundaries_of l) <= List.length l.
Proof.
  unfold boundaries_of.
  etransitivity; [apply filter_length_le|]. now rewrite length_seq.
Qed.

Lemma step_self (c : counters) (n : nat) (l : list str) :
  perfect c n ->
  perfect (step c l l) (S n) /\
  TP (step c l l) = (TP c + Z.of_nat (List.length (boundaries_of l)))%Z.
Proof.
  intros (HFP & HFN & Heq & Hcw & HTP).
  unfold perfect, step. cbn [TP FP FN equal total corr_words].
  rewrite common_self, equal_count_self, labels_eqb_refl.
  pose proof (length_boundaries_of l). repeat split; lia.
Qed.

Lemma run_loop_self (gold : list (list str)) :
  forall (words : list Word) (c : counters) (n : nat),
    List.length words = List.length gold ->
    perfect c n ->
    perfect (run_loop (zip3 gold gold words) c) (n + List.length gold) /\
    (TP c <= TP (run_loop (zip3 gold gold words) c))%Z /\
    (Exists (fun l => boundaries_of l <> []) gold ->
     (TP c < TP (run_loop (zip3 gold gold words) c))%Z).
Proof.
  induction gold as [|l gold IH]; intros words c n Hlen Hc.
  - simpl. rewrite Nat.add_0_r. split; [exact Hc|]. split; [lia|].
    intros H. inversion H.
  - destruct words as [|w words]; [discriminate|].
    injection Hlen as Hlen.
    change (run_loop (zip3 (l :: gold) (l :: gold) (w :: words)) c)
      with (run_loop (zip3 gold gold words) (step c l l)).
    destruct (@step_self c n l Hc) as [Hs HT].
    destruct (IH words (step c l l) (S n) Hlen Hs) as (Hp & Hle & Hlt).
    cbn [List.length]. rewrite Nat.add_succ_r.
    split; [exact Hp|]. split; [lia|].
    intros H. inversion H as [? ? Hb|? ? Hb]; subst.
    + destruct (boundaries_of l); [congruence|].
      cbn [List.length] in HT. lia.
    + specialize (Hlt Hb). lia.
Qed.

(** C6, as the code has it. When the predictions are the gold sequences,
    the word list is as long as they are, and some gold sequence has a
    boundary position, the five metrics are all 1. *)
Theorem perfect_prediction (gold : list (list str)) (words : list Word)
        (verbose : bool) :
  List.length words = List.length gold ->
  Exists (fun l => boundaries_of l <> []) gold ->
  measure_quality gold gold words verbose = Ok all_ones.
Proof.
  intros Hlen Hex. unfold measure_quality.
  assert (H0 : perfect counters0 0) by (repeat split; simpl; lia).
  destruct (@run_loop_self gold words counters0 0 Hlen H0)
    as ((HFP & HFN & Heq & Hcw & HTP) & _ & Hlt).
  specialize (Hlt Hex). simpl in Hlt.
  assert (Hn : 0 < List.length gold) by (inversion Hex; simpl; lia).
  set (c := run_loop (zip3 gold gold words) counters0) in *.
  unfold results_of. rewrite HFP, HFN, Heq, Hcw. simpl (0 + _)%nat.
  rewrite Z.add_0_r.
  rewrite !truediv_one;
    try reflexivity; try (apply inject_Z_nonzero; lia).
  - change (inject_Z (0 + 0)) with 0%Q. intros H.
    apply (@inject_Z_nonzero (TP c)); [lia|].
    rewrite <- H. ring.
  - change (inject_Z (0 + 0)) with 0%Q. ring.
Qed.

Lemma perfect_prediction_witness :
  measure_quality [[lit "S-END"; lit "S-END"]] [[lit "S-END"; lit "S-END"]]
                  [two_endings] false = Ok all_ones.
Proof.
  apply perfect_prediction.
  - reflexivity.
  - constructor. vm_compute. discriminate.
Defined.

(** C6, as the claim states it, fails: the hyphen alone is a data set of
    one word, its gold labels are [S-HYPH], which is no boundary tag, and
    with the prediction equal to them the first ratio divides by zero. *)
Lemma perfect_prediction_without_boundary :
  Word_.get_labels hyphen_word = Ok [lit "S-HYPH"] /\
  measure_quality [[lit "S-HYPH"]] [[lit "S-HYPH"]] [hyphen_word] false
    = Raise ZeroDivisionError.
Proof.
  split; vm_compute; reflexivity.
Qed.

(** ** Lists of different lengths *)

Lemma zip3_firstn {A B C} (a : list A) :
  forall (b : list B) (c : list C),
    zip3 a b c
    = zip3 (firstn (zip_length a b c) a) (firstn (zip_length a b c) b)
           (firstn (zip_length a b c) c).
Proof.
  unfold zip_length.
  induction a as [|x a IH]; intros [|y b] [|z c]; try reflexivity.
  cbn [List.length Nat.min firstn zip3]. now rewrite <- IH.
Qed.

Lemma length_zip3 {A B C} (a : list A) :
  forall (b : list B) (c : list C),
    List.length (zip3 a b c) = zip_length a b c.
Proof.
  unfold zip_length.
  induction a as [|x a IH]; intros [|y b] [|z c]; try reflexivity.
  cbn [List.length Nat.min zip3]. now rewrite IH.
Qed.

Lemma results_of_raise (c : counters) (n : nat) (e : exn) :
  results_of c n = Raise e -> e = ZeroDivisionError.
Proof.
  unfold results_of.
  repeat match goal with
         | |- context [truediv ?a ?b] =>
             let E := fresh "E" in
             destruct (truediv a b) eqn:E;
             [clear E|apply truediv_raise in E; subst; now intros [= <-]]
         end.
  discriminate.
Qed.

(** C7, as the code has it. On lists of different lengths the scorer
    raises nothing for the difference: the loop runs over the first
    [min] of the three lengths, the word count is divided by the number of
    gold sequences, and a division by zero is the only exception. *)
Theorem length_mismatch_truncates
        (predicted_targets targets : list (list str)) (words : list Word)
        (verbose : bool) :
  let n := zip_length targets predicted_targets words in
  List.length (zip3 targets predicted_targets words) = n /\
  measure_quality predicted_targets targets words verbose
    = (results <- results_of
                    (run_loop (zip3 (firstn n targets)
                                    (firstn n predicted_targets)
                                    (firstn n words)) counters0)
                    (List.length targets) ;;
       Ok (combine metrics results)) /\
  (forall e, measure_quality predicted_targets targets words verbose = Raise e
             -> e = ZeroDivisionError).
Proof.
  intros n. split; [apply length_zip3|]. split.
  - unfold measure_quality. now rewrite (zip3_firstn targets) at 1.
  - intros e. unfold measure_quality.
    destruct (results_of _ _) as [r|e'] eqn:E; [discriminate|].
    intros [= <-]. eapply results_of_raise, E.
Qed.

Lemma length_mismatch_truncates_witness :
  List.length (zip3 [[lit "S-ROOT"]; [lit "S-ROOT"]] [[lit "S-ROOT"]]
                    [hyphen_word]) = 1 /\
  measure_quality [[lit "S-ROOT"]] [[lit "S-ROOT"]; [lit "S-ROOT"]]
                  [hyphen_word] false
    = (results <- results_of
                    (run_loop (zip3 (firstn 1 [[lit "S-ROOT"]; [lit "S-ROOT"]])
                                    (firstn 1 [[lit "S-ROOT"]])
                                    (firstn 1 [hyphen_word])) counters0)
                    2 ;;
       Ok (combine metrics results)) /\
  (forall e,
      measure_quality [[lit "S-ROOT"]] [[lit "S-ROOT"]; [lit "S-ROOT"]]
                      [hyphen_word] false = Raise e ->
      e = ZeroDivisionError).
Proof.
  exact (length_mismatch_truncates [[lit "S-ROOT"]]
           [[lit "S-ROOT"]; [lit "S-ROOT"]] [hyphen_word] false).
Defined.

(** C7, as the claim states it, fails: with two gold sequences, one
    prediction and one word the scorer returns its five numbers, the word
    accuracy being one word out of two. *)
Lemma length_mismatch_returns :
  List.length [[lit "S-ROOT"]] <> List.length [[lit "S-ROOT"]; [lit "S-ROOT"]] /\
  measure_quality [[lit "S-ROOT"]] [[lit "S-ROOT"]; [lit "S-ROOT"]]
                  [hyphen_word] false
  = Ok [(lit "Precision", 1%Q); (lit "Recall", 1%Q); (lit "F1", 1%Q);
        (lit "Accuracy", 1%Q); (lit "Word accuracy", (1 # 2)%Q)].
Proof.
  split; [discriminate|]. vm_compute. reflexivity.
Qed.

(** ** Zero denominators *)

(** C8. When a denominator of one of the five ratios is zero, be it
    TP + FP, TP + FN, TP + 0.5 (FP + FN), the total gold length or the
    number of gold sequences, [measure_quality] raises the division-by-zero
    exception and returns no number. *)
Theorem zero_denominator
        (predicted_targets targets : list (list str)) (words : list Word)
        (verbose : bool) :
  let c := run_loop (zip3 targets predicted_targets words) counters0 in
  (TP c + FP c = 0)%Z \/ (TP c + FN c = 0)%Z \/
  (inject_Z (TP c) + (1 # 2) * inject_Z (FP c + FN c) == 0)%Q \/
  total c = 0%Z \/ List.length targets = 0 ->
  measure_quality predicted_targets targets words verbose
    = Raise ZeroDivisionError.
Proof.
  intros c H. unfold measure_quality. fold c. unfold results_of.
  destruct (truediv (inject_Z (TP c)) (inject_Z (TP c + FP c))) as [p|e] eqn:E1;
    [|apply truediv_raise in E1; now subst].
  destruct (truediv (inject_Z (TP c)) (inject_Z (TP c + FN c))) as [r|e] eqn:E2;
    [|apply truediv_raise in E2; now subst].
  destruct (truediv (inject_Z (TP c))
                    (inject_Z (TP c) + (1 # 2) * inject_Z (FP c + FN c)))
    as [f|e] eqn:E3; [|apply truediv_raise in E3; now subst].
  destruct (truediv (inject_Z (equal c)) (inject_Z (total c))) as [a|e] eqn:E4;
    [|apply truediv_raise in E4; now subst].
  destruct (truediv (inject_Z (corr_words c))
                    (inject_Z (Z.of_nat (List.length targets))))
    as [wa|e] eqn:E5; [|apply truediv_raise in E5; now subst].
  exfalso. destruct H as [H|[H|[H|[H|H]]]].
  - rewrite truediv_zero in E1; [discriminate|now apply inject_Z_zero].
  - rewrite truediv_zero in E2; [discriminate|now apply inject_Z_zero].
  - rewrite truediv_zero in E3; [discriminate|assumption].
  - rewrite truediv_zero in E4; [discriminate|now apply inject_Z_zero].
  - rewrite truediv_zero in E5; [discriminate|].
    apply inject_Z_zero. now rewrite H.
Qed.

Lemma zero_denominator_witness :
  measure_quality [[lit "S-HYPH"]] [[lit "S-HYPH"]] [hyphen_word] false
    = Raise ZeroDivisionError.
Proof.
  apply zero_denominator. left. vm_compute. reflexivity.
Defined.

(** ** Why neighbours of one kind must open with a B- tag

    The full labels of a word close as many morphemes as the word has; the
    decoder closes one per part, and it makes fewer parts than the word has
    morphemes as soon as two neighbours share a kind that has no [B-]
    tag. *)

Lemma count_ends_app (a b : list str) :
  count_ends (a ++ b) = count_ends a + count_ends b.
Proof.
  unfold count_ends. now rewrite filter_app, length_app.
Qed.

Lemma count_ends_cons (s : str) (l : list str) :
  count_ends (s :: l) = (if ends_morpheme s then 1 else 0) + count_ends l.
Proof.
  unfold count_ends. cbn [filter]. now destruct (ends_morpheme s).
Qed.

Lemma ends_S (x : str) : ends_morpheme (lit "S-" ++ x) = true.
Proof.
  unfold ends_morpheme. now rewrite startswith_app.
Qed.

Lemma ends_E (x : str) : ends_morpheme (lit "E-" ++ x) = true.
Proof.
  unfold ends_morpheme. rewrite (startswith_app (lit "E-")).
  apply orb_true_r.
Qed.

Lemma ends_B (x : str) : ends_morpheme (lit "B-" ++ x) = false.
Proof. reflexivity. Qed.

Lemma ends_M (x : str) : ends_morpheme (lit "M-" ++ x) = false.
Proof. reflexivity. Qed.

Lemma count_ends_middles (l : list str) :
  count_ends (List.map (app (lit "M-")) l) = 0.
Proof.
  induction l as [|s l IH]; [reflexivity|].
  cbn [List.map]. now rewrite count_ends_cons, ends_M, IH.
Qed.

Lemma count_ends_relabel_str (part : list str) :
  part <> [] -> count_ends (relabel_str part) = 1.
Proof.
  destruct part as [|p0 [|o others]]; [congruence| |]; intros _;
    unfold relabel_str.
  - now rewrite count_ends_cons, ends_S.
  - rewrite !count_ends_app, count_ends_middles.
    now rewrite !count_ends_cons, ends_B, ends_E.
Qed.

Lemma count_ends_parts (G : list (list str)) :
  Forall (fun g => g <> []) G ->
  count_ends (List.concat (List.map relabel_str G)) = List.length G.
Proof.
  induction 1 as [|g G Hg _ IH]; [reflexivity|].
  cbn [List.map List.concat List.length].
  now rewrite count_ends_app, count_ends_relabel_str, IH.
Qed.

Lemma count_ends_full_of (v : str) (n : nat) :
  1 <= n -> count_ends (full_of v n) = 1.
Proof.
  intros Hn. unfold full_of. destruct (Nat.eqb n 1).
  - now rewrite count_ends_cons, ends_S.
  - rewrite !count_ends_app.
    assert (H : count_ends (repeat (lit "M-" ++ v) (n - 2)) = 0).
    { induction (n - 2) as [|k IH]; [reflexivity|].
      cbn [repeat]. now rewrite count_ends_cons, ends_M, IH. }
    rewrite H. now rewrite !count_ends_cons, ends_B, ends_E.
Qed.

Lemma count_ends_word (ms : list Morpheme) :
  Forall well_formed ms ->
  count_ends (flat_map (fun m => full_of (name_of m) (Morpheme_.length m)) ms)
  = List.length ms.
Proof.
  induction 1 as [|m ms Hm _ IH]; [reflexivity|].
  cbn [flat_map List.length].
  rewrite count_ends_app, IH, count_ends_full_of; [reflexivity|apply Hm].
Qed.

Lemma separable_dec (m m' : Morpheme) :
  (label m = label m' -> opens_with_B (label m) = true) \/
  (label m = label m' /\ opens_with_B (label m) = false).
Proof.
  destruct (label m), (label m');
    try (left; intros _; reflexivity); try (left; discriminate);
    right; split; reflexivity.
Qed.

Lemma extends_merges (l : MorphemeLabel) (prev : str) :
  opens_with_B l = false -> closes_kind l prev ->
  extends prev (head_label l) = true.
Proof.
  intros Hb [->|[Hb' _]]; [|congruence].
  destruct l; try discriminate Hb; reflexivity.
Qed.

Lemma closes_kind_head (l : MorphemeLabel) : closes_kind l (head_label l).
Proof.
  unfold closes_kind, head_label.
  destruct (opens_with_B l); [right|left]; auto.
Qed.

Lemma length_groups_morphemes (ms : list Morpheme) :
  forall (m : Morpheme) (prev : str) (cur : list str) (j : nat),
    well_formed m -> Forall well_formed ms ->
    closes_kind (label m) prev ->
    List.length
      (groups prev cur
              (repeat (kind_name (label m)) j ++ flat_map simple_strs ms))
      <= 1 + List.length ms /\
    (~ separable (m :: ms) ->
     List.length
       (groups prev cur
               (repeat (kind_name (label m)) j ++ flat_map simple_strs ms))
       < 1 + List.length ms).
Proof.
  induction ms as [|m' ms IH]; intros m prev cur j Hm Hms Hc.
  - destruct (@groups_run (label m) j (proj2 Hm) prev cur [] Hc)
      as (p & _ & E).
    simpl flat_map. rewrite E. simpl. split; [lia|]. intros H. now elim H.
  - inversion Hms as [|? ? Hm' Hms']; subst.
    destruct (@groups_run (label m) j (proj2 Hm) prev cur
                (flat_map simple_strs (m' :: ms)) Hc) as (p & Hp & E).
    rewrite E. cbn [flat_map]. unfold simple_strs at 1 3.
    cbn [app groups List.length].
    destruct (IH m' (head_label (label m'))
                 ((cur ++ repeat (kind_name (label m)) j)
                    ++ [head_label (label m')])
                 (Morpheme_.length m' - 1) Hm' Hms'
                 (closes_kind_head (label m'))) as [Hle1 _].
    destruct (IH m' (head_label (label m')) [head_label (label m')]
                 (Morpheme_.length m' - 1) Hm' Hms'
                 (closes_kind_head (label m'))) as [Hle2 Hlt2].
    destruct (extends p (head_label (label m'))) eqn:Ex.
    + split; [lia|]. intros _. lia.
    + cbn [List.length]. split; [lia|]. intros Hns.
      destruct (separable_dec m m') as [Hadj|[Hsame Hb]].
      * assert (Hrest : ~ separable (m' :: ms)).
        { intros Hs. apply Hns. split; assumption. }
        specialize (Hlt2 Hrest). lia.
      * rewrite <- Hsame in Ex.
        rewrite (extends_merges Hb Hp) in Ex. discriminate.
Qed.

(** The other direction of C1: on a word whose morphemes have text and a
    kind, the round trip holds only if no two neighbours share a kind
    outside PREF, ROOT and SUFF. *)
Lemma round_trip_needs_separable (w : Word) :
  morphemes w <> [] ->
  Forall well_formed (morphemes w) ->
  (s <- Word_.get_simple_labels w ;; _transform_classification s)
    = Word_.get_labels w ->
  separable (morphemes w).
Proof.
  intros Hne Hw Heq.
  rewrite get_labels_full, get_simple_labels_strs in Heq by assumption.
  cbn [bind] in Heq.
  destruct (morphemes w) as [|m ms]; [congruence|].
  inversion Hw as [|? ? Hm Hms]; subst.
  assert (Hdec : separable (m :: ms) \/ ~ separable (m :: ms)).
  { clear Heq Hne Hw Hm Hms. revert m.
    induction ms as [|m' ms IH]; intros m; [left; exact I|].
    destruct (IH m') as [Hs|Hs].
    - destruct (separable_dec m m') as [Ha|[Ha Hb]].
      + left. split; assumption.
      + right. intros [Hadj _]. rewrite (Hadj Ha) in Hb. discriminate.
    - right. intros [_ Hs']. contradiction. }
  destruct Hdec as [Hs|Hs]; [assumption|exfalso].
  cbn [flat_map] in Heq. unfold simple_strs at 1 in Heq. cbn [app] in Heq.
  rewrite transform_strs in Heq. injection Heq as Heq.
  apply (f_equal count_ends) in Heq.
  rewrite count_ends_parts in Heq by (apply groups_nonempty; discriminate).
  change (full_of (name_of m) (Morpheme_.length m)
            ++ flat_map (fun m => full_of (name_of m) (Morpheme_.length m)) ms)
    with (flat_map (fun m => full_of (name_of m) (Morpheme_.length m))
                   (m :: ms)) in Heq.
  rewrite count_ends_word in Heq by assumption.
  destruct (@length_groups_morphemes ms m (head_label (label m))
              [head_label (label m)] (Morpheme_.length m - 1) Hm Hms
              (closes_kind_head (label m))) as [_ Hlt].
  specialize (Hlt Hs). cbn [List.length] in Heq. lia.
Qed.

(** * Further properties of the code *)

(** ** Methods of [Word] and [Morpheme] *)

(** X1. [Word.suffix_count] compares every label with [MorphemeLabel.SUFFIX],
    which the enumeration does not have (its member is [SUFF]): the method
    returns 0 on a word without morphemes and raises [AttributeError] on
    every other word. *)
Theorem suffix_count_never_counts (w : Word) :
  Word_.suffix_count w
  = match morphemes w with
    | [] => Ok 0
    | _ :: _ => Raise AttributeError
    end.
Proof.
  unfold Word_.suffix_count. destruct (morphemes w); reflexivity.
Qed.

Lemma unlabeled_NONE (m : Morpheme) :
  Morpheme_.unlabeled m = true <-> label m = NONE.
Proof.
  unfold Morpheme_.unlabeled. destruct (label m); simpl; split;
    congruence.
Qed.

Lemma get_labels_unlabeled (m : Morpheme) :
  Morpheme_.unlabeled m = true -> Morpheme_.get_labels m = Raise TypeError.
Proof.
  intros H. apply unlabeled_NONE in H. unfold Morpheme_.get_labels.
  rewrite H. simpl. now destruct (Nat.eqb (Morpheme_.length m) 1).
Qed.

Lemma get_labels_labeled (m : Morpheme) :
  Morpheme_.unlabeled m = false ->
  Morpheme_.get_labels m = Ok (full_of (name_of m) (Morpheme_.length m)).
Proof.
  intros H. apply get_labels_value. unfold name_of, kind_name.
  destruct (value (label m)) as [v|] eqn:E; [reflexivity|].
  unfold Morpheme_.unlabeled in H. now rewrite E in H.
Qed.

Lemma collect_raises {A} (f : Morpheme -> result (list A)) (e : exn)
      (ms : list Morpheme) :
  (forall m, In m ms -> (exists l, f m = Ok l) \/ f m = Raise e) ->
  Exists (fun m => f m = Raise e) ms ->
  forall acc, Word_.collect f ms acc = Raise e.
Proof.
  intros Hall Hex. induction Hex as [m ms Hm|m ms _ IH]; intros acc; simpl.
  - now rewrite Hm.
  - destruct (Hall m (or_introl eq_refl)) as [[l Hl]|Hr].
    + rewrite Hl. simpl. apply IH. intros x Hx. apply Hall. now right.
    + now rewrite Hr.
Qed.

(** X2. [Word.get_labels] returns a list exactly when no morpheme is
    unlabeled, and raises [TypeError] when one is; [Word.get_simple_labels]
    never raises. *)
Theorem get_labels_raises_on_unlabeled (w : Word) :
  (existsb Morpheme_.unlabeled (morphemes w) = false <->
   exists l, Word_.get_labels w = Ok l) /\
  (existsb Morpheme_.unlabeled (morphemes w) = true <->
   Word_.get_labels w = Raise TypeError) /\
  exists s, Word_.get_simple_labels w = Ok s.
Proof.
  assert (Hno : existsb Morpheme_.unlabeled (morphemes w) = false ->
                exists l, Word_.get_labels w = Ok l).
  { intros H. eexists. unfold Word_.get_labels. apply collect_closed.
    apply Forall_forall. intros m Hm. apply get_labels_labeled.
    destruct (Morpheme_.unlabeled m) eqn:E; [|reflexivity].
    assert (existsb Morpheme_.unlabeled (morphemes w) = true)
      by (apply existsb_exists; eauto).
    congruence. }
  assert (Hyes : existsb Morpheme_.unlabeled (morphemes w) = true ->
                 Word_.get_labels w = Raise TypeError).
  { intros H. apply existsb_exists in H. destruct H as (m & Hm & Hu).
    unfold Word_.get_labels. apply collect_raises.
    - intros x _. destruct (Morpheme_.unlabeled x) eqn:E.
      + right. now apply get_labels_unlabeled.
      + left. eexists. now apply get_labels_labeled.
    - apply Exists_exists. exists m. split; [assumption|].
      now apply get_labels_unlabeled. }
  split; [|split].
  - split; [exact Hno|]. intros [l Hl].
    destruct (existsb _ _) eqn:E; [|reflexivity].
    rewrite (Hyes eq_refl) in Hl. discriminate.
  - split; [exact Hyes|]. intros Hr.
    destruct (existsb _ _) eqn:E; [reflexivity|].
    destruct (Hno eq_refl) as [l Hl]. congruence.
  - eexists. unfold Word_.get_simple_labels. apply collect_closed.
    apply Forall_forall. intros m _. apply get_simple_labels_closed.
Qed.

Lemma length_full_of_any (v : str) (n : nat) :
  List.length (full_of v n) = n + (if Nat.eqb n 0 then 2 else 0).
Proof.
  unfold full_of. destruct n as [|[|n]]; try reflexivity.
  cbn [Nat.eqb]. cbn [app List.length]. rewrite length_app, repeat_length.
  simpl. lia.
Qed.

Lemma length_simple_of_any (l : MorphemeLabel) (n : nat) :
  List.length (simple_of l n)
  = n + (if Nat.eqb n 0 && opens_with_B l then 1 else 0).
Proof.
  destruct l, n; simpl; rewrite ?repeat_length; lia.
Qed.

Lemma list_sum_cons (a : nat) (l : list nat) :
  list_sum (a :: l) = a + list_sum l.
Proof. reflexivity. Qed.

Lemma length_flat_map_sum {A B} (g : A -> list B) (l : list A) :
  List.length (flat_map g l)
  = list_sum (List.map (fun a => List.length (g a)) l).
Proof.
  induction l as [|a l IH]; simpl; [reflexivity|].
  now rewrite length_app, IH.
Qed.

(** X3. With morphemes of any length, the empty ones included: when no label
    is NONE, the full labels are the letters of the word and two more for
    each morpheme without text, and the simple labels are the letters and
    one more for each morpheme without text of kind PREF, ROOT or SUFF. *)
Theorem label_lengths_with_empty_morphemes (w : Word) :
  Forall (fun m => label m <> NONE) (morphemes w) ->
  exists full simple,
    Word_.get_labels w = Ok full /\
    Word_.get_simple_labels w = Ok simple /\
    List.length full = Word_.len w + 2 * empty_count (morphemes w) /\
    List.length simple = Word_.len w + empty_B_count (morphemes w).
Proof.
  intros Hw. unfold Word_.get_labels, Word_.get_simple_labels, Word_.len.
  rewrite (@collect_closed _ _
             (fun m => full_of (name_of m) (Morpheme_.length m))).
  2:{ eapply Forall_impl; [|exact Hw]. intros m Hm.
      apply get_labels_labeled.
      destruct (Morpheme_.unlabeled m) eqn:E; [|reflexivity].
      apply unlabeled_NONE in E. contradiction. }
  rewrite (@collect_closed _ _
             (fun m => simple_of (label m) (Morpheme_.length m))).
  2:{ apply Forall_forall. intros m _. apply get_simple_labels_closed. }
  do 2 eexists. split; [reflexivity|]. split; [reflexivity|].
  cbn [app]. rewrite len_closed, !length_flat_map_sum.
  unfold empty_count, empty_B_count, no_text. clear Hw.
  induction (morphemes w) as [|m ms [IH1 IH2]]; [split; reflexivity|].
  cbn [List.map filter]. rewrite !list_sum_cons.
  rewrite length_full_of_any, length_simple_of_any, IH1, IH2.
  destruct (Nat.eqb (Morpheme_.length m) 0);
    destruct (opens_with_B (label m)); cbn [andb List.length]; lia.
Qed.

Lemma label_lengths_with_empty_morphemes_witness :
  exists full simple,
    Word_.get_labels (mkWord [mkMorpheme [] ROOT 0; mkMorpheme [] END 0]
                             (lit "X")) = Ok full /\
    Word_.get_simple_labels
      (mkWord [mkMorpheme [] ROOT 0; mkMorpheme [] END 0] (lit "X"))
      = Ok simple /\
    List.length full = 0 + 2 * 2 /\
    List.length simple = 0 + 1.
Proof.
  apply (@label_lengths_with_empty_morphemes
           (mkWord [mkMorpheme [] ROOT 0; mkMorpheme [] END 0] (lit "X"))).
  repeat constructor; discriminate.
Defined.

(** ** More on splitting *)

Lemma count_app (c : char) (a b : str) :
  count c (a ++ b) = count c a + count c b.
Proof.
  induction a as [|x a IH]; simpl; [reflexivity|]. rewrite IH. lia.
Qed.

Lemma split_no_sep (c : char) (s : str) : count c s = 0 -> split c s = [s].
Proof.
  induction s as [|x s IH]; simpl; [reflexivity|].
  destruct (N.eqb x c); [discriminate|]. intros H. now rewrite IH.
Qed.

Lemma split_app_sep (c : char) (a b : str) :
  count c a = 0 -> split c (a ++ c :: b) = a :: split c b.
Proof.
  induction a as [|x a IH]; simpl.
  - intros _. now rewrite N.eqb_refl.
  - destruct (N.eqb x c); [discriminate|]. intros H. now rewrite IH.
Qed.

Lemma pieces_no_sep (c : char) (s : str) :
  Forall (fun p => count c p = 0) (split c s).
Proof.
  induction s as [|x s IH]; simpl; [repeat constructor|].
  destruct (N.eqb x c) eqn:E; [constructor; [reflexivity|assumption]|].
  pose proof (split_nonempty c s) as Hne.
  destruct (split c s) as [|h t]; [congruence|].
  inversion IH; subst. constructor; [|assumption]. simpl. now rewrite E.
Qed.

Lemma pieces_no_other (c d : char) (s : str) :
  count d s = 0 -> Forall (fun p => count d p = 0) (split c s).
Proof.
  induction s as [|x s IH]; simpl; [repeat constructor|].
  intros H. assert (Hx : N.eqb x d = false) by (destruct (N.eqb x d); [discriminate|reflexivity]).
  rewrite Hx in H. specialize (IH H).
  destruct (N.eqb x c); [constructor; [reflexivity|assumption]|].
  pose proof (split_nonempty c s) as Hne.
  destruct (split c s) as [|h t]; [congruence|].
  inversion IH; subst. constructor; [|assumption]. simpl. now rewrite Hx.
Qed.

Lemma contains_char (c : char) (s : str) :
  contains [c] s = false <-> count c s = 0.
Proof.
  induction s as [|x s IH]; simpl; [tauto|].
  assert (Hs : startswith s [] = true) by (now destruct s).
  rewrite Hs, andb_true_r. destruct (N.eqb x c); simpl.
  - split; discriminate.
  - exact IH.
Qed.

(** ** What [parse_word] accepts and what it raises *)

(** X4. A line without a tab, or with more than three, raises [ValueError]:
    its fields cannot be unpacked into two names. *)
Theorem parse_word_field_count (line : str) :
  count tab line = 0 \/ 4 <= count tab line ->
  parse_word line = Raise ValueError.
Proof.
  intros H. unfold parse_word, split_fields.
  pose proof (length_split tab line) as Hlen.
  destruct (Nat.eqb_spec (count tab line) 3); [lia|].
  destruct (Nat.eqb_spec (count tab line) 2); [lia|].
  destruct (split tab line) as [|a [|b [|c t]]]; try reflexivity.
  simpl in Hlen. lia.
Qed.

Lemma parse_word_field_count_witness :
  parse_word (lit "word") = Raise ValueError.
Proof.
  apply parse_word_field_count. left. reflexivity.
Defined.

Lemma parse_word_inv (line : str) (w : Word) :
  parse_word line = Ok (Some w) ->
  exists wordform word_parts,
    split_fields line = Ok (wordform, word_parts, sp w) /\
    contains [colon] wordform || contains [slash] wordform = false /\
    parse_parts (split slash word_parts) [] 0 = Ok (morphemes w).
Proof.
  unfold parse_word.
  destruct (split_fields line) as [[[wordform word_parts] sp0]|e];
    [|discriminate].
  cbn [bind]. destruct (_ || _) eqn:G; [discriminate|].
  destruct (parse_parts (split slash word_parts) [] 0) as [ms|e] eqn:E;
    [|discriminate].
  cbn [bind]. intros [= <-]. exists wordform, word_parts. auto.
Qed.

Lemma split_fields_word_parts (line wordform word_parts sp0 : str) :
  split_fields line = Ok (wordform, word_parts, sp0) ->
  count tab word_parts = 0.
Proof.
  unfold split_fields. pose proof (pieces_no_sep tab line) as Hp.
  destruct (Nat.eqb (count tab line) 3);
    [|destruct (Nat.eqb (count tab line) 2)];
    destruct (split tab line) as [|a [|b [|c [|d [|x t]]]]];
    try discriminate.
  - destruct (class_of d); [|discriminate]. intros [= _ <- _].
    inversion Hp as [|? ? _ Hp']. now inversion Hp'.
  - intros [= _ <- _]. inversion Hp as [|? ? _ Hp']. now inversion Hp'.
  - intros [= _ <- _]. inversion Hp as [|? ? _ Hp']. now inversion Hp'.
Qed.

Lemma member_name_value (l : MorphemeLabel) :
  l <> NONE -> value l = Some (member_name l).
Proof.
  destruct l; intros H; try reflexivity. now elim H.
Qed.







(** ** [str] of a parsed word, and parsing it again *)

Lemma to_str_of_parsed (part : str) (gi : Z) (m : Morpheme) :
  parse_morpheme part gi = Ok m -> label m <> NONE ->
  Morpheme_.to_str m = Ok part.
Proof.
  intros Hm Hl. apply parse_morpheme_token in Hm. destruct Hm as [_ Hp].
  unfold Morpheme_.to_str. rewrite (member_name_value Hl). cbn [add_str].
  now rewrite Hp, <- app_assoc.
Qed.

Lemma to_str_of_parse_parts (parts : list str) :
  forall (acc : list Morpheme) (gi : Z) (ms : list Morpheme),
    parse_parts parts acc gi = Ok ms ->
    exists ms', ms = acc ++ ms' /\
      (Forall (fun m => label m <> NONE) ms' ->
       mapM Morpheme_.to_str ms' = Ok parts).
Proof.
  induction parts as [|part parts IH]; intros acc gi ms H; simpl in H.
  - inversion H; subst. exists []. now rewrite app_nil_r.
  - destruct (parse_morpheme part gi) as [m|e] eqn:Em; [|discriminate].
    cbn [bind] in H. apply IH in H. destruct H as (ms' & -> & Hs).
    exists (m :: ms'). rewrite <- app_assoc. split; [reflexivity|].
    intros Hl. inversion Hl as [|? ? Hm Hms]; subst. cbn [mapM].
    rewrite (@to_str_of_parsed part gi m Em Hm). cbn [bind].
    now rewrite (Hs Hms).
Qed.

(** X6. [str] of a parsed word none of whose labels is NONE is the morpheme
    field of the line it was parsed from. *)
Theorem str_of_parsed_word (line wordform word_parts sp0 : str) (w : Word) :
  split_fields line = Ok (wordform, word_parts, sp0) ->
  parse_word line = Ok (Some w) ->
  Forall (fun m => label m <> NONE) (morphemes w) ->
  Word_.to_str w = Ok word_parts.
Proof.
  intros Hf Hp Hl. apply parse_word_inv in Hp.
  destruct Hp as (wf & wp & Hf' & _ & Hps).
  rewrite Hf in Hf'. injection Hf' as _ <- _.
  apply to_str_of_parse_parts in Hps. destruct Hps as (ms' & E & Hs).
  cbn [app] in E. subst ms'. unfold Word_.to_str.
  rewrite (Hs Hl). cbn [bind]. now rewrite join_split.
Qed.

Lemma str_of_parsed_word_witness :
  Word_.to_str
    (mkWord [mkMorpheme Scenario.pri PREF 0; mkMorpheme Scenario.dvor ROOT 8]
            (lit "X"))
  = Ok (Scenario.pri ++ lit ":PREF/" ++ Scenario.dvor ++ lit ":ROOT").
Proof.
  apply (@str_of_parsed_word
           (lit "w" ++ [tab] ++ Scenario.pri ++ lit ":PREF/" ++ Scenario.dvor
                ++ lit ":ROOT")
           (lit "w") _ (lit "X")).
  - vm_compute. reflexivity.
  - vm_compute. reflexivity.
  - repeat constructor; discriminate.
Defined.

Lemma count_concat (c : char) (l : list str) :
  Forall (fun s => count c s = 0) l -> count c (List.concat l) = 0.
Proof.
  induction 1 as [|s l Hs _ IH]; [reflexivity|].
  simpl. now rewrite count_app, Hs, IH.
Qed.

Lemma parse_morpheme_text (part : str) (gi : Z) (m : Morpheme) :
  parse_morpheme part gi = Ok m ->
  (count colon (part_text m) = 0) /\
  (forall c, count c part = 0 -> count c (part_text m) = 0).
Proof.
  intros Hm. split.
  - unfold parse_morpheme in Hm.
    pose proof (pieces_no_sep colon part) as Hp.
    destruct (split colon part) as [|text [|name [|x t]]]; try discriminate.
    destruct (label_of_name name); [|discriminate].
    cbn [bind] in Hm. injection Hm as <-. now inversion Hp.
  - intros c Hc. apply parse_morpheme_token in Hm. destruct Hm as [_ E].
    rewrite E, count_app in Hc. lia.
Qed.

Lemma parse_parts_Forall (P : Morpheme -> Prop) (parts : list str) :
  (forall part gi m,
      In part parts -> parse_morpheme part gi = Ok m -> P m) ->
  forall (acc : list Morpheme) (gi : Z) (ms : list Morpheme),
    parse_parts parts acc gi = Ok ms ->
    exists ms', ms = acc ++ ms' /\ Forall P ms'.
Proof.
  induction parts as [|part parts IH]; intros HP acc gi ms H; simpl in H.
  - inversion H; subst. exists []. now rewrite app_nil_r.
  - destruct (parse_morpheme part gi) as [m|e] eqn:Em; [|discriminate].
    cbn [bind] in H. apply IH in H.
    + destruct H as (ms' & -> & Hs).
      exists (m :: ms'). rewrite <- app_assoc. split; [reflexivity|].
      constructor; [|assumption]. eapply HP; [left; reflexivity|exact Em].
    + intros p g x Hin. apply HP. now right.
Qed.

(** The texts of a parsed word have no tab, colon or slash. *)
Lemma parsed_texts_plain (line : str) (w : Word) :
  parse_word line = Ok (Some w) ->
  Forall (fun m => plain (part_text m)) (morphemes w).
Proof.
  intros Hp. apply parse_word_inv in Hp.
  destruct Hp as (wf & wp & Hf & _ & Hps).
  apply split_fields_word_parts in Hf.
  apply (@parse_parts_Forall (fun m => plain (part_text m))) in Hps.
  - destruct Hps as (ms' & E & H). cbn [app] in E. now subst.
  - intros part gi m Hin Hm. apply parse_morpheme_text in Hm.
    destruct Hm as [Hc Hother]. split; [|split; [assumption|]].
    + apply Hother. pose proof (pieces_no_other slash tab wp Hf) as Hall.
      rewrite Forall_forall in Hall. now apply Hall.
    + apply Hother. pose proof (pieces_no_sep slash wp) as Hall.
      rewrite Forall_forall in Hall. now apply Hall.
Qed.

Lemma get_word_plain (w : Word) :
  Forall (fun m => plain (part_text m)) (morphemes w) ->
  plain (Word_.get_word w).
Proof.
  intros H. unfold Word_.get_word, plain.
  repeat split; apply count_concat; apply Forall_map;
    (eapply Forall_impl; [|exact H]); intros m Hm; apply Hm.
Qed.

Lemma plain_line (wordform rest : str) :
  count tab wordform = 0 -> count tab rest = 0 ->
  split_fields (wordform ++ tab :: rest) = Ok (wordform, rest, lit "X").
Proof.
  intros Hw Hr. unfold split_fields.
  rewrite count_app. cbn [count]. rewrite N.eqb_refl, Hw, Hr.
  cbn [Nat.add Nat.eqb].
  rewrite split_app_sep by assumption. now rewrite split_no_sep.
Qed.

(** X7. Parsing is idempotent through [str]: a parsed word none of whose
    labels is NONE, written back as its text, a tab and its [str], parses
    to the same morphemes, offsets included, with the default part of
    speech. *)
Theorem parse_of_str (line : str) (w : Word) :
  parse_word line = Ok (Some w) ->
  Forall (fun m => label m <> NONE) (morphemes w) ->
  exists s,
    Word_.to_str w = Ok s /\
    parse_word (Word_.get_word w ++ [tab] ++ s)
    = Ok (Some (mkWord (morphemes w) (lit "X"))).
Proof.
  intros Hp Hl. pose proof (parsed_texts_plain _ Hp) as Htexts.
  apply get_word_plain in Htexts. destruct Htexts as (Ht & Hc & Hs).
  pose proof Hp as Hinv. apply parse_word_inv in Hinv.
  destruct Hinv as (wf & wp & Hf & _ & Hps).
  exists wp. split; [exact (str_of_parsed_word _ Hf Hp Hl)|].
  unfold parse_word. cbn [app].
  rewrite (@plain_line _ _ Ht (@split_fields_word_parts _ _ _ _ Hf)).
  cbn [bind].
  apply contains_char in Hc. apply contains_char in Hs.
  rewrite Hc, Hs. cbn [orb]. rewrite Hps. reflexivity.
Qed.

Lemma parse_of_str_witness :
  exists s,
    Word_.to_str
      (mkWord [mkMorpheme Scenario.pri PREF 0; mkMorpheme Scenario.dvor ROOT 8]
              (lit "ADJ")) = Ok s /\
    parse_word
      (Word_.get_word
         (mkWord [mkMorpheme Scenario.pri PREF 0;
                  mkMorpheme Scenario.dvor ROOT 8] (lit "ADJ"))
         ++ [tab] ++ s)
    = Ok (Some (mkWord [mkMorpheme Scenario.pri PREF 0;
                        mkMorpheme Scenario.dvor ROOT 8] (lit "X"))).
Proof.
  apply (@parse_of_str
           (lit "w" ++ [tab] ++ Scenario.pri ++ lit ":PREF/" ++ Scenario.dvor
                ++ lit ":ROOT" ++ [tab] ++ lit "ADJ")).
  - vm_compute. reflexivity.
  - repeat constructor; discriminate.
Defined.

(** X8. [parse_word] looks at the word form for a colon or a slash and for
    nothing else: two lines that differ only in a word form without tab,
    colon or slash give the same result, whatever the morphemes spell. *)
Theorem wordform_is_not_compared (wordform1 wordform2 rest : str) :
  plain wordform1 -> plain wordform2 ->
  parse_word (wordform1 ++ tab :: rest)
  = parse_word (wordform2 ++ tab :: rest).
Proof.
  intros (Ht1 & Hc1 & Hs1) (Ht2 & Hc2 & Hs2).
  apply contains_char in Hc1, Hs1, Hc2, Hs2.
  unfold parse_word, split_fields.
  rewrite !count_app. cbn [count]. rewrite N.eqb_refl, Ht1, Ht2.
  rewrite !split_app_sep by assumption.
  destruct (Nat.eqb (0 + (1 + count tab rest)) 3);
    [|destruct (Nat.eqb (0 + (1 + count tab rest)) 2)];
    destruct (split tab rest) as [|a [|b [|c [|d t]]]]; try reflexivity;
    try (destruct (class_of c); [|reflexivity]);
    cbn [bind]; now rewrite Hc1, Hs1, Hc2, Hs2.
Qed.

Lemma wordform_is_not_compared_witness :
  parse_word (lit "abc" ++ tab :: lit "x:ROOT")
  = parse_word (lit "x" ++ tab :: lit "x:ROOT").
Proof.
  apply wordform_is_not_compared; repeat split.
Defined.

(** ** More on the decoder *)

Lemma split_parts_partition (rest : list pyval) :
  forall (parts : list (list pyval)) (cur : list pyval) (prev : pyval)
         (parts' : list (list pyval)) (cur' : list pyval),
    split_parts parts cur prev rest = Ok (parts', cur') ->
    cur <> [] ->
    cur' <> [] /\
    List.concat parts' ++ cur' = List.concat parts ++ cur ++ rest.
Proof.
  induction rest as [|letter rest IH]; intros parts cur prev parts' cur' H Hc.
  - simpl in H. injection H as <- <-. split; [assumption|].
    now rewrite app_nil_r.
  - assert (Hnext :
      split_parts parts (cur ++ [letter]) letter rest = Ok (parts', cur') \/
      split_parts (parts ++ [cur]) [letter] letter rest = Ok (parts', cur')).
    { cbn [split_parts] in H.
      destruct (is_lit letter "SUFF" && is_lit prev "B-SUFF"); [now left|].
      destruct (is_lit letter "PREF" && is_lit prev "B-PREF"); [now left|].
      destruct (is_lit letter "ROOT" && is_lit prev "B-ROOT"); [now left|].
      destruct (negb (pyval_eqb letter prev)); cbn [bind] in H;
        [now right|].
      destruct (starts_B letter) as [[|]|e]; cbn [bind] in H;
        [now right|now left|discriminate]. }
    destruct Hnext as [Hn|Hn]; apply IH in Hn.
    + destruct Hn as [Hne E]. split; [assumption|].
      rewrite E, <- !app_assoc. reflexivity.
    + now destruct cur.
    + destruct Hn as [Hne E]. split; [assumption|].
      rewrite E, concat_app. cbn [List.concat]. rewrite app_nil_r.
      rewrite <- !app_assoc. reflexivity.
    + discriminate.
Qed.

Lemma strip_B_None (p0 : pyval) : strip_B p0 = None -> p0 = None.
Proof.
  destruct p0 as [s|]; [|reflexivity]. rewrite strip_B_str. discriminate.
Qed.

Lemma add_str_Ok (p : str) (v : pyval) (s : str) :
  add_str p v = Ok s -> v <> None.
Proof.
  destruct v; [discriminate|discriminate].
Qed.

Lemma mapM_Forall {A B} (f : A -> result B) (P : A -> Prop) (l : list A)
      (r : list B) :
  (forall a b, f a = Ok b -> P a) -> mapM f l = Ok r -> Forall P l.
Proof.
  intros Hf. revert r. induction l as [|a l IH]; intros r H; [constructor|].
  simpl in H. destruct (f a) as [b|e] eqn:Ea; [|discriminate].
  cbn [bind] in H. destruct (mapM f l) as [bs|e]; [|discriminate].
  constructor; [eapply Hf, Ea|eapply IH; reflexivity].
Qed.

Lemma relabel_Ok (part : list pyval) (l : list str) :
  relabel part = Ok l -> Forall (fun v => v <> None) part.
Proof.
  unfold relabel. destruct part as [|p0 others]; [discriminate|].
  assert (H0 : forall p s, add_str p (strip_B p0) = Ok s -> p0 <> None).
  { intros p s H Hn. apply add_str_Ok in H. apply H. now subst. }
  destruct (Nat.eqb (List.length (p0 :: others)) 1) eqn:E.
  - destruct others; [|discriminate].
    destruct (add_str (lit "S-") (strip_B p0)) eqn:Es; [|discriminate].
    intros _. constructor; [eapply H0, Es|constructor].
  - destruct (add_str (lit "B-") (strip_B p0)) eqn:Eb; [|discriminate].
    cbn [bind].
    destruct (add_str (lit "E-") (last others None)) eqn:Ee; [|discriminate].
    cbn [bind].
    destruct (mapM (add_str (lit "M-")) (removelast others)) eqn:Em;
      [|discriminate].
    intros _. constructor; [eapply H0, Eb|].
    destruct others as [|o others]; [discriminate|].
    rewrite (@app_removelast_last _ (o :: others) None) by discriminate.
    apply Forall_app. split.
    + eapply mapM_Forall; [|exact Em]. intros x y. apply add_str_Ok.
    + constructor; [eapply add_str_Ok, Ee|constructor].
Qed.

(** X9. The decoder returns a list exactly on the non-empty lists of strings:
    it raises on the empty list and on every list that holds a [None]. *)
Theorem decoder_accepts (parse : list pyval) :
  (exists out, _transform_classification parse = Ok out) <->
  parse <> [] /\ exists strs, parse = List.map Some strs.
Proof.
  split.
  - intros [out H]. unfold _transform_classification in H.
    destruct parse as [|first rest]; [discriminate|].
    split; [discriminate|].
    destruct (split_parts [] [first] first rest) as [[parts cur]|e] eqn:Es;
      [|discriminate].
    cbn [bind] in H.
    apply split_parts_partition in Es; [|discriminate].
    destruct Es as [Hne E]. destruct cur as [|c cur]; [congruence|].
    destruct (mapM relabel (parts ++ [c :: cur])) as [ps|e] eqn:Em;
      [|discriminate].
    assert (Hall : Forall (fun v => v <> None) (first :: rest)).
    { cbn [List.concat app] in E.
      rewrite <- E.
      replace (List.concat parts ++ c :: cur)
        with (List.concat (parts ++ [c :: cur]))
        by (rewrite concat_app; cbn [List.concat]; now rewrite app_nil_r).
      apply Forall_concat.
      eapply mapM_Forall; [|exact Em]. intros x y. apply relabel_Ok. }
    clear - Hall. induction Hall as [|v l Hv _ [strs IH]]; [now exists []|].
    destruct v as [s|]; [|now elim Hv]. exists (s :: strs). simpl. now rewrite IH.
  - intros [Hne [strs ->]]. destruct strs as [|first rest]; [now elim Hne|].
    eexists. apply transform_strs.
Qed.

Lemma bmes_middles (l : list str) (y : str) (rest : list str) :
  bmes true (List.map (app (lit "M-")) l ++ [lit "E-" ++ y] ++ rest)
  = bmes false rest.
Proof.
  induction l as [|x l IH]; cbn [List.map app bmes].
  - rewrite (startswith_app (lit "E-")).
    change (startswith (lit "E-" ++ y) (lit "M-")) with false.
    reflexivity.
  - rewrite (startswith_app (lit "M-")).
    change (startswith (lit "M-" ++ x) (lit "E-")) with false.
    cbn [andb orb]. rewrite orb_false_r. exact IH.
Qed.

Lemma bmes_relabel_str (part : list str) (rest : list str) :
  part <> [] -> bmes false (relabel_str part ++ rest) = bmes false rest.
Proof.
  destruct part as [|p0 [|o others]]; [congruence| |]; intros _;
    unfold relabel_str.
  - cbn [app bmes]. rewrite (startswith_app (lit "S-")).
    change (startswith (lit "S-" ++ strip_str p0) (lit "B-")) with false.
    cbn [andb orb]. apply orb_false_r.
  - rewrite <- app_assoc. cbn [app bmes].
    rewrite (startswith_app (lit "B-")).
    change (startswith (lit "B-" ++ strip_str p0) (lit "S-")) with false.
    cbn [andb orb]. rewrite <- app_assoc. apply bmes_middles.
Qed.

(** X10. Whatever strings the decoder is given, its output reads as morphemes:
    every [B-] tag is followed by [M-] tags and closed by an [E-] tag,
    [S-] tags stand alone, and the last morpheme is closed. *)
Theorem decoder_output_is_bracketed (parse : list str) (out : list str) :
  _transform_classification (List.map Some parse) = Ok out ->
  bmes false out = true.
Proof.
  destruct parse as [|first rest]; [discriminate|].
  rewrite transform_strs. intros [= <-].
  pose proof (@groups_nonempty rest first [first]) as Hne.
  specialize (Hne ltac:(discriminate)).
  induction Hne as [|g G Hg _ IH]; [reflexivity|].
  cbn [List.map List.concat]. now rewrite bmes_relabel_str.
Qed.

Lemma decoder_output_is_bracketed_witness :
  bmes false (List.map lit ["S-ROOT"; "S-ROOT"; "B-END"; "E-END"; "S-SUFF"]%string)
  = true.
Proof.
  apply (@decoder_output_is_bracketed
           [lit "ROOT"; lit "B-ROOT"; lit "END"; lit "END"; lit "SUFF"]).
  vm_compute. reflexivity.
Defined.

Lemma groups_tails (rest : list str) :
  forall (prev : str) (cur : list str),
    Forall (fun s => startswith s (lit "B-") = false) (tl cur) ->
    cur <> [] ->
    Forall (fun g => Forall (fun s => startswith s (lit "B-") = false) (tl g))
           (groups prev cur rest).
Proof.
  induction rest as [|letter rest IH]; intros prev cur Hc Hne; simpl.
  - now constructor.
  - destruct (extends prev letter) eqn:E.
    + apply IH; [|now destruct cur].
      destruct cur as [|c cur]; [congruence|]. cbn [app tl] in *.
      apply Forall_app. split; [assumption|]. constructor; [|constructor].
      unfold extends in E.
      repeat (apply orb_prop in E; destruct E as [E|E]);
        try (apply andb_prop in E; destruct E as [E _];
             apply eqb_eq in E; now subst).
      apply andb_prop in E. destruct E as [_ E].
      now destruct (startswith letter (lit "B-")).
    + constructor; [assumption|]. apply IH; [constructor|discriminate].
Qed.

Lemma strip_str_not_B (s : str) :
  startswith s (lit "B-") = false -> strip_str s = s.
Proof.
  intros H. unfold strip_str.
  destruct (PyStr.eqb s (lit "B-PREF")) eqn:E1;
    [apply eqb_eq in E1; subst; discriminate|].
  destruct (PyStr.eqb s (lit "B-SUFF")) eqn:E2;
    [apply eqb_eq in E2; subst; discriminate|].
  destruct (PyStr.eqb s (lit "B-ROOT")) eqn:E3;
    [apply eqb_eq in E3; subst; discriminate|].
  reflexivity.
Qed.

Lemma slice_2_relabel_str (part : list str) :
  Forall (fun s => startswith s (lit "B-") = false) (tl part) ->
  List.map slice_2 (relabel_str part) = List.map strip_str part.
Proof.
  destruct part as [|p0 [|o others]]; [reflexivity|reflexivity|].
  cbn [tl]. intros H.
  assert (Hid : List.map strip_str (o :: others) = o :: others).
  { rewrite <- (map_id (o :: others)) at 2.
    apply map_ext_Forall. eapply Forall_impl; [|exact H].
    intros s. apply strip_str_not_B. }
  change (List.map strip_str (p0 :: o :: others))
    with (strip_str p0 :: List.map strip_str (o :: others)).
  rewrite Hid. unfold relabel_str.
  rewrite !map_app, map_map.
  change (fun x : list N => slice_2 (lit "M-" ++ x)) with (fun x : list N => x).
  rewrite map_id. cbn [List.map app slice_2 skipn]. f_equal.
  symmetry. apply app_removelast_last. discriminate.
Qed.

(** X11. The decoder changes no letter's kind: under its two-character tag each
    output label is the input label of the same position, with [B-PREF],
    [B-SUFF] and [B-ROOT] read as [PREF], [SUFF] and [ROOT]. *)
Theorem decoder_keeps_kinds (parse : list str) (out : list str) :
  _transform_classification (List.map Some parse) = Ok out ->
  List.map slice_2 out = List.map strip_str parse.
Proof.
  destruct parse as [|first rest]; [discriminate|].
  rewrite transform_strs. intros [= <-].
  change (first :: rest) with ([first] ++ rest).
  rewrite <- (concat_groups rest first [first]).
  pose proof (@groups_tails rest first [first]) as Ht.
  specialize (Ht ltac:(constructor) ltac:(discriminate)).
  induction Ht as [|g G Hg _ IH]; [reflexivity|].
  cbn [List.map List.concat]. rewrite !map_app.
  now rewrite slice_2_relabel_str, IH.
Qed.

Lemma decoder_keeps_kinds_witness :
  List.map slice_2
           (List.map lit ["S-ROOT"; "S-ROOT"; "B-END"; "E-END"; "S-SUFF"]%string)
  = List.map strip_str
             [lit "ROOT"; lit "B-ROOT"; lit "END"; lit "END"; lit "SUFF"].
Proof.
  apply decoder_keeps_kinds. vm_compute. reflexivity.
Defined.

(** ** Bounds and symmetries of the scorer *)

Lemma length_common_le (G P : list nat) :
  NoDup G ->
  List.length (filter (fun x => existsb (Nat.eqb x) P) G) <= List.length P.
Proof.
  intros HG. apply NoDup_incl_length; [now apply NoDup_filter|].
  intros x Hx. now apply common_spec in Hx.
Qed.

Lemma length_common_comm (G P : list nat) :
  NoDup G -> NoDup P ->
  List.length (filter (fun x => existsb (Nat.eqb x) P) G)
  = List.length (filter (fun x => existsb (Nat.eqb x) G) P).
Proof.
  intros HG HP. apply Nat.le_antisymm;
    (apply NoDup_incl_length; [now apply NoDup_filter|]);
    intros x Hx; apply common_spec in Hx; apply common_spec; tauto.
Qed.

Lemma equal_count_bounds (corr pred : list str) :
  (0 <= equal_count corr pred <= Z.of_nat (List.length corr))%Z.
Proof.
  unfold equal_count. revert pred.
  induction corr as [|x corr IH]; intros [|y pred];
    cbn [combine List.map fold_left fst snd]; try (simpl; lia).
  rewrite fold_add_shift. specialize (IH pred).
  cbn [List.length]. rewrite Nat2Z.inj_succ.
  destruct (PyStr.eqb x y); lia.
Qed.

Lemma equal_count_comm (corr pred : list str) :
  equal_count corr pred = equal_count pred corr.
Proof.
  unfold equal_count. revert pred.
  induction corr as [|x corr IH]; intros [|y pred]; try reflexivity.
  cbn [combine List.map fold_left fst snd].
  rewrite (fold_add_shift _ (0 + _)), (fold_add_shift _ (0 + (if PyStr.eqb y x then _ else _))).
  rewrite IH. f_equal.
  destruct (PyStr.eqb x y) eqn:E.
  - apply eqb_eq in E. subst. now rewrite eqb_refl.
  - destruct (PyStr.eqb y x) eqn:E'; [|reflexivity].
    apply eqb_eq in E'. subst. now rewrite eqb_refl in E.
Qed.

Lemma step_counted (c : counters) (k : nat) (corr pred : list str) :
  counted c k -> counted (step c corr pred) (S k).
Proof.
  intros (HT & HP & HN & HE & HW). unfold counted, step.
  cbn [TP FP FN equal total corr_words].
  pose proof (filter_length_le
                (fun x => existsb (Nat.eqb x) (boundaries_of pred))
                (boundaries_of corr)).
  pose proof (@length_common_le (boundaries_of corr) (boundaries_of pred)
                (NoDup_boundaries_of corr)).
  pose proof (equal_count_bounds corr pred).
  destruct (labels_eqb corr pred); lia.
Qed.

Lemma run_loop_counted (rows : list (list str * list str * Word)) :
  forall (c : counters) (k : nat),
    counted c k -> counted (run_loop rows c) (k + List.length rows).
Proof.
  induction rows as [|[[corr pred] w] rows IH]; intros c k Hc.
  - simpl. now rewrite Nat.add_0_r.
  - change (run_loop (((corr, pred), w) :: rows) c)
      with (run_loop rows (step c corr pred)).
    cbn [List.length]. rewrite Nat.add_succ_r.
    apply (IH _ (S k)). now apply step_counted.
Qed.

Lemma measure_quality_counted
      (predicted_targets targets : list (list str)) (words : list Word) :
  counted (run_loop (zip3 targets predicted_targets words) counters0)
          (List.length targets).
Proof.
  pose proof (@run_loop_counted (zip3 targets predicted_targets words)
                counters0 0) as H.
  assert (H0 : counted counters0 0) by (unfold counted; simpl; lia).
  specialize (H H0). rewrite length_zip3 in H. unfold zip_length in H.
  unfold counted in *. lia.
Qed.

Lemma truediv_Ok (a b q : Q) :
  truediv a b = Ok q -> ~ (b == 0)%Q /\ (q == a / b)%Q.
Proof.
  unfold truediv. destruct (Qeq_bool b 0) eqn:E; [discriminate|].
  intros Hq. assert (Hq' : q = Qred (a / b)) by congruence.
  split; [|rewrite Hq'; apply Qred_correct].
  intros H. apply Qeq_bool_iff in H. congruence.
Qed.

Lemma results_of_Ok (c : counters) (n : nat) (r : list Q) :
  results_of c n = Ok r ->
  exists p rc f a wa,
    r = [p; rc; f; a; wa] /\
    truediv (inject_Z (TP c)) (inject_Z (TP c + FP c)) = Ok p /\
    truediv (inject_Z (TP c)) (inject_Z (TP c + FN c)) = Ok rc /\
    truediv (inject_Z (TP c))
            (inject_Z (TP c) + (1 # 2) * inject_Z (FP c + FN c))%Q = Ok f /\
    truediv (inject_Z (equal c)) (inject_Z (total c)) = Ok a /\
    truediv (inject_Z (corr_words c)) (inject_Z (Z.of_nat n)) = Ok wa.
Proof.
  unfold results_of.
  destruct (truediv (inject_Z (TP c)) (inject_Z (TP c + FP c))) as [p|];
    [|discriminate].
  destruct (truediv (inject_Z (TP c)) (inject_Z (TP c + FN c))) as [rc|];
    [|discriminate].
  destruct (truediv (inject_Z (TP c))
                    (inject_Z (TP c) + (1 # 2) * inject_Z (FP c + FN c)))
    as [f|]; [|discriminate].
  destruct (truediv (inject_Z (equal c)) (inject_Z (total c))) as [a|];
    [|discriminate].
  destruct (truediv (inject_Z (corr_words c)) (inject_Z (Z.of_nat n)))
    as [wa|]; [|discriminate].
  cbn [bind]. intros [= <-]. exists p, rc, f, a, wa. repeat split.
Qed.

Lemma ratio_bounds (a b q : Q) :
  (0 <= a)%Q -> (a <= b)%Q -> truediv a b = Ok q -> (0 <= q <= 1)%Q.
Proof.
  intros Ha Hab H. apply truediv_Ok in H. destruct H as [Hb Hq].
  assert (Hpos : (0 < b)%Q).
  { apply Qle_lt_or_eq in Hab. destruct Hab as [Hlt|Heq].
    - eapply Qle_lt_trans; eassumption.
    - apply Qle_lt_or_eq in Ha. destruct Ha as [Hlt|Hz].
      + now rewrite <- Heq.
      + exfalso. apply Hb. now rewrite <- Heq, <- Hz. }
  rewrite Hq. split.
  - apply Qle_shift_div_l; [assumption|]. now rewrite Qmult_0_l.
  - apply Qle_shift_div_r; [assumption|]. now rewrite Qmult_1_l.
Qed.

Lemma inject_Z_nonneg (z : Z) : (0 <= z)%Z -> (0 <= inject_Z z)%Q.
Proof.
  intros H. change 0%Q with (inject_Z 0). now rewrite <- Zle_Qle.
Qed.

Lemma inject_Z_le (x y : Z) : (x <= y)%Z -> (inject_Z x <= inject_Z y)%Q.
Proof.
  intros H. now rewrite <- Zle_Qle.
Qed.

Lemma f1_denominator (tp fpfn : Z) :
  (0 <= fpfn)%Z ->
  (inject_Z tp <= inject_Z tp + (1 # 2) * inject_Z fpfn)%Q.
Proof.
  intros H. rewrite <- (Qplus_0_r (inject_Z tp)) at 1.
  apply Qplus_le_compat; [apply Qle_refl|].
  apply Qmult_le_0_compat; [discriminate|now apply inject_Z_nonneg].
Qed.

(** X12. Whenever [measure_quality] returns, it returns the five names in order,
    each with a number between 0 and 1. *)
Theorem metrics_between_0_and_1
        (predicted_targets targets : list (list str)) (words : list Word)
        (verbose : bool) (res : list (str * Q)) :
  measure_quality predicted_targets targets words verbose = Ok res ->
  List.map fst res = metrics /\
  Forall (fun q => (0 <= q <= 1)%Q) (List.map snd res).
Proof.
  unfold measure_quality.
  pose proof (measure_quality_counted predicted_targets targets words) as Hc.
  set (c := run_loop (zip3 targets predicted_targets words) counters0) in *.
  destruct (results_of c (List.length targets)) as [r|] eqn:Er;
    [|discriminate].
  cbn [bind]. intros [= <-].
  apply results_of_Ok in Er.
  destruct Er as (p & rc & f & a & wa & -> & Hp & Hr & Hf & Ha & Hw).
  split; [reflexivity|].
  destruct Hc as (HT & HP & HN & HE & HW).
  cbn [combine metrics List.map snd].
  constructor.
  { eapply ratio_bounds; [| |exact Hp];
      [apply inject_Z_nonneg|apply inject_Z_le]; lia. }
  constructor.
  { eapply ratio_bounds; [| |exact Hr];
      [apply inject_Z_nonneg|apply inject_Z_le]; lia. }
  constructor.
  { eapply ratio_bounds; [| |exact Hf];
      [apply inject_Z_nonneg|apply f1_denominator]; lia. }
  constructor.
  { eapply ratio_bounds; [| |exact Ha];
      [apply inject_Z_nonneg|apply inject_Z_le]; lia. }
  constructor; [|constructor].
  eapply ratio_bounds; [| |exact Hw];
    [apply inject_Z_nonneg|apply inject_Z_le]; lia.
Qed.

Lemma metrics_between_0_and_1_witness :
  List.map fst
    [(lit "Precision", (1 # 2)%Q); (lit "Recall", (1 # 2)%Q);
     (lit "F1", (1 # 2)%Q); (lit "Accuracy", (5 # 6)%Q);
     (lit "Word accuracy", 0%Q)] = metrics /\
  Forall (fun q => (0 <= q <= 1)%Q)
    (List.map snd
       [(lit "Precision", (1 # 2)%Q); (lit "Recall", (1 # 2)%Q);
        (lit "F1", (1 # 2)%Q); (lit "Accuracy", (5 # 6)%Q);
        (lit "Word accuracy", 0%Q)]).
Proof.
  apply (@metrics_between_0_and_1 [pred_2_6] [gold_2_5] [two_endings] false).
  vm_compute. reflexivity.
Defined.



Lemma labels_eqb_comm (corr pred : list str) :
  labels_eqb corr pred = labels_eqb pred corr.
Proof.
  revert pred. induction corr as [|x corr IH]; intros [|y pred];
    try reflexivity.
  cbn [labels_eqb]. rewrite IH. f_equal.
  destruct (PyStr.eqb x y) eqn:E.
  - apply eqb_eq in E. subst. now rewrite eqb_refl.
  - destruct (PyStr.eqb y x) eqn:E'; [|reflexivity].
    apply eqb_eq in E'. subst. now rewrite eqb_refl in E.
Qed.

Lemma step_swap (c c' : counters) (corr pred : list str) :
  exchanged c c' -> exchanged (step c corr pred) (step c' pred corr).
Proof.
  intros (HT & HP & HN & HE & HW). unfold exchanged, step.
  cbn [TP FP FN equal total corr_words].
  rewrite (@length_common_comm (boundaries_of corr) (boundaries_of pred))
    by apply NoDup_boundaries_of.
  rewrite (equal_count_comm corr pred), (labels_eqb_comm corr pred).
  repeat split; lia.
Qed.

Lemma run_loop_swap (a : list (list str)) :
  forall (b : list (list str)) (words : list Word) (c c' : counters),
    exchanged c c' ->
    exchanged (run_loop (zip3 a b words) c) (run_loop (zip3 b a words) c').
Proof.
  induction a as [|x a IH]; intros [|y b] [|w words] c c' H; try exact H.
  change (run_loop (zip3 (x :: a) (y :: b) (w :: words)) c)
    with (run_loop (zip3 a b words) (step c x y)).
  change (run_loop (zip3 (y :: b) (x :: a) (w :: words)) c')
    with (run_loop (zip3 b a words) (step c' y x)).
  apply IH. now apply step_swap.
Qed.

(** X14. Exchanging the predictions and the gold sequences keeps [TP], the
    count of equal positions and the count of equal words, and exchanges
    [FP] and [FN]: the precision of one run is the recall of the other. *)
Theorem exchange_gold_and_predicted
        (a b : list (list str)) (words : list Word) :
  let c := run_loop (zip3 a b words) counters0 in
  let c' := run_loop (zip3 b a words) counters0 in
  exchanged c c' /\
  truediv (inject_Z (TP c)) (inject_Z (TP c + FP c))
  = truediv (inject_Z (TP c')) (inject_Z (TP c' + FN c')).
Proof.
  intros c c'.
  assert (H : exchanged c c').
  { apply run_loop_swap. repeat split. }
  split; [exact H|]. destruct H as (H1 & H2 & _). now rewrite H1, H2.
Qed.

(** ** Parts of speech *)

Lemma dict_get_enumerate (l : list str) (s : str) :
  forall k : nat,
    (In s l ->
     exists i, dict_get PyStr.eqb (combine l (seq k (List.length l))) s
               = Ok (k + i) /\ nth_error l i = Some s) /\
    (~ In s l ->
     dict_get PyStr.eqb (combine l (seq k (List.length l))) s
     = Raise KeyError).
Proof.
  induction l as [|x l IH]; intros k.
  - split; [intros []|reflexivity].
  - cbn [List.length seq combine dict_get].
    destruct (PyStr.eqb x s) eqn:E.
    + apply eqb_eq in E. subst x. split.
      * intros _. exists 0. now rewrite Nat.add_0_r.
      * intros H. elim H. now left.
    + apply eqb_neq in E. destruct (IH (S k)) as [Hin Hout]. split.
      * intros [Hx|Hs]; [congruence|].
        destruct (Hin Hs) as (i & Hi & Hn). exists (S i).
        rewrite Hi. split; [f_equal; lia|exact Hn].
      * intros H. apply Hout. intros Hs. apply H. now right.
Qed.

Lemma list_set_repeat {A} (z one : A) (n i : nat) :
  i < n ->
  exists arr,
    list_set (repeat z n) i one = Ok arr /\
    List.length arr = n /\
    forall j, nth j arr z = if Nat.eqb j i then one else z.
Proof.
  revert i. induction n as [|n IH]; intros i Hi; [lia|].
  destruct i as [|i]; cbn [repeat list_set].
  - eexists. split; [reflexivity|]. split; [simpl; now rewrite repeat_length|].
    intros [|j]; [reflexivity|]. cbn [nth Nat.eqb]. apply nth_repeat.
  - destruct (IH i ltac:(lia)) as (arr & -> & Hlen & Hnth).
    cbn [bind]. eexists. split; [reflexivity|].
    split; [simpl; now rewrite Hlen|].
    intros [|j]; [reflexivity|]. cbn [nth Nat.eqb]. apply Hnth.
Qed.

Lemma nth_error_length {A} (l : list A) (i : nat) (a : A) :
  nth_error l i = Some a -> i < List.length l.
Proof.
  intros H. apply nth_error_Some. congruence.
Qed.

Lemma speech_part_array_known (sp0 : str) :
  In sp0 SPEECH_PARTS ->
  exists arr i,
    build_speech_part_array sp0 = Ok arr /\
    List.length arr = 21 /\
    nth_error SPEECH_PARTS i = Some sp0 /\
    forall j, nth j arr 0%Q = if Nat.eqb j i then 1%Q else 0%Q.
Proof.
  unfold build_speech_part_array, SPEECH_PART_MAPPING.
  destruct (dict_get_enumerate SPEECH_PARTS sp0 0) as [Hin _].
  intros H. destruct (Hin H) as (i & -> & Hn). cbn [bind Nat.add].
  rewrite map_const, length_seq.
  destruct (@list_set_repeat Q 0%Q 1%Q (List.length SPEECH_PARTS) i)
    as (arr & Hs & Hlen & Hnth); [eapply nth_error_length, Hn|].
  exists arr, i. repeat split; assumption.
Qed.

Lemma speech_part_array_unknown (sp0 : str) :
  ~ In sp0 SPEECH_PARTS -> build_speech_part_array sp0 = Raise KeyError.
Proof.
  unfold build_speech_part_array, SPEECH_PART_MAPPING.
  destruct (dict_get_enumerate SPEECH_PARTS sp0 0) as [_ Hout].
  intros H. now rewrite (Hout H).
Qed.

(** X15. [build_speech_part_array] returns, for a tag of [SPEECH_PARTS], a row of
    21 numbers with a one at the place of the tag and zeros elsewhere, and
    raises [KeyError] for every other string. *)
Theorem speech_part_array_is_one_hot (sp0 : str) :
  (In sp0 SPEECH_PARTS ->
   exists arr i,
     build_speech_part_array sp0 = Ok arr /\
     List.length arr = 21 /\
     nth_error SPEECH_PARTS i = Some sp0 /\
     forall j, nth j arr 0%Q = if Nat.eqb j i then 1%Q else 0%Q) /\
  (~ In sp0 SPEECH_PARTS -> build_speech_part_array sp0 = Raise KeyError).
Proof.
  split; [apply speech_part_array_known|apply speech_part_array_unknown].
Qed.

Lemma speech_part_array_is_one_hot_witness :
  exists arr i,
    build_speech_part_array (lit "NOUN") = Ok arr /\
    List.length arr = 21 /\
    nth_error SPEECH_PARTS i = Some (lit "NOUN") /\
    forall j, nth j arr 0%Q = if Nat.eqb j i then 1%Q else 0%Q.
Proof.
  apply (proj1 (speech_part_array_is_one_hot (lit "NOUN"))).
  vm_compute. tauto.
Defined.

Lemma class_of_speech_part (class_info s : str) :
  class_of class_info = Ok s -> In s SPEECH_PARTS.
Proof.
  unfold class_of.
  repeat match goal with
         | |- context [if ?b then _ else _] =>
             destruct b; [intros [= <-]; vm_compute; tauto|]
         end.
  discriminate.
Qed.

(** X16. The part of speech of a parsed word: on a line of two or four fields
    it is a tag of [SPEECH_PARTS], so that [build_speech_part_array]
    returns a row for it; on a line of three fields it is the third field
    as it stands, checked against nothing. *)
Theorem speech_part_of_parsed_word (line : str) (w : Word) :
  parse_word line = Ok (Some w) ->
  (count tab line <> 2 ->
   In (sp w) SPEECH_PARTS /\
   exists arr, build_speech_part_array (sp w) = Ok arr) /\
  (count tab line = 2 -> nth_error (split tab line) 2 = Some (sp w)).
Proof.
  intros Hp. apply parse_word_inv in Hp.
  destruct Hp as (wf & wp & Hf & _ & _). unfold split_fields in Hf.
  destruct (Nat.eqb_spec (count tab line) 3) as [E3|N3].
  - split; [intros _|lia].
    destruct (split tab line) as [|a [|b [|c [|d [|x t]]]]];
      try discriminate.
    destruct (class_of d) as [s|] eqn:Ec; [|discriminate].
    cbn [bind] in Hf. injection Hf as _ _ <-.
    apply class_of_speech_part in Ec. split; [assumption|].
    destruct (speech_part_array_known Ec) as (arr & i & Ha & _).
    eauto.
  - destruct (Nat.eqb_spec (count tab line) 2) as [E2|N2].
    + split; [lia|intros _].
      destruct (split tab line) as [|a [|b [|c [|d t]]]]; try discriminate.
      now injection Hf as _ _ <-.
    + split; [intros _|lia].
      destruct (split tab line) as [|a [|b [|c t]]]; try discriminate.
      injection Hf as _ _ <-.
      assert (Hx : In (lit "X") SPEECH_PARTS) by (vm_compute; tauto).
      split; [assumption|].
      destruct (speech_part_array_known Hx) as (arr & i & Ha & _).
      eauto.
Qed.

Lemma speech_part_of_parsed_word_witness :
  (count tab Scenario.pridvornyj <> 2 ->
   In (lit "X") SPEECH_PARTS /\
   exists arr, build_speech_part_array (lit "X") = Ok arr) /\
  (count tab Scenario.pridvornyj = 2 ->
   nth_error (split tab Scenario.pridvornyj) 2 = Some (lit "X")).
Proof.
  apply (@speech_part_of_parsed_word Scenario.pridvornyj
           (mkWord [mkMorpheme Scenario.pri PREF 0;
                    mkMorpheme Scenario.dvor ROOT 8;
                    mkMorpheme Scenario.n SUFF 17;
                    mkMorpheme Scenario.yj END 23] (lit "X"))).
  vm_compute. reflexivity.
Defined.

(** ** Feature rows and targets *)

Lemma mapM_total {A B} (f : A -> result B) (P : B -> Prop) (l : list A) :
  Forall (fun a => exists b, f a = Ok b /\ P b) l ->
  exists bs, mapM f l = Ok bs /\ List.length bs = List.length l /\
             Forall P bs.
Proof.
  induction 1 as [|a l (b & Hb & HP) _ (bs & Hbs & Hlen & HPs)].
  - exists []. repeat split. constructor.
  - exists (b :: bs). cbn [mapM]. rewrite Hb. cbn [bind]. rewrite Hbs.
    cbn [bind List.length]. repeat split; [now rewrite Hlen|].
    now constructor.
Qed.

Lemma to_categorical_row (y n : nat) :
  y < n -> exists row, to_categorical y n = Ok row /\ List.length row = n.
Proof.
  intros H. destruct (@list_set_repeat Q 0%Q 1%Q n y H) as (row & Hr & Hl & _).
  now exists row.
Qed.

Lemma letter_code_bound (letter : char) (code : nat) :
  dict_get N.eqb LETTERS letter = Ok code -> code <= 34.
Proof.
  unfold LETTERS. cbn [dict_get].
  repeat match goal with
         | |- context [N.eqb ?a letter] =>
             destruct (N.eqb a letter); cbv beta iota;
             [intros [= <-]; lia|]
         end.
  discriminate.
Qed.

Lemma letter_features_row (sp0 : str) (letter : char) :
  In sp0 SPEECH_PARTS ->
  exists row, letter_features sp0 letter = Ok row /\
              List.length row = input_width.
Proof.
  intros Hsp. unfold letter_features.
  assert (Hcode : match dict_get N.eqb LETTERS letter with
                  | Ok code => code
                  | Raise _ => 0
                  end < List.length LETTERS + 1).
  { destruct (dict_get N.eqb LETTERS letter) as [code|] eqn:E.
    - apply letter_code_bound in E. simpl. lia.
    - simpl. lia. }
  destruct (to_categorical_row Hcode) as (cat & -> & Hcat).
  destruct (speech_part_array_known Hsp) as (arr & i & -> & Harr & _).
  cbn [bind]. eexists. split; [reflexivity|].
  cbn [app List.length]. rewrite length_app, Hcat, Harr.
  reflexivity.
Qed.

Lemma length_get_word (w : Word) :
  List.length (Word_.get_word w) = Word_.len w.
Proof.
  unfold Word_.get_word, Word_.len. rewrite len_closed. cbn [Nat.add].
  induction (morphemes w) as [|m ms IH]; [reflexivity|].
  cbn [List.map List.concat]. rewrite length_app, IH. reflexivity.
Qed.

Lemma parts_id_of_kind (l : MorphemeLabel) :
  l <> NONE ->
  (exists i, parts_id (Some (kind_name l)) = Ok i /\ i <= 10 /\
             dict_get Nat.eqb reverse_mapping i = Ok (kind_name l)) /\
  (exists i, parts_id (Some (head_label l)) = Ok i /\ i <= 10 /\
             dict_get Nat.eqb reverse_mapping i = Ok (head_label l)).
Proof.
  destruct l; intros H; try (now elim H);
    split; eexists; (split; [reflexivity|]); (split; [lia|reflexivity]).
Qed.

Lemma simple_strs_keys (m : Morpheme) :
  label m <> NONE ->
  Forall (fun s => exists i, parts_id (Some s) = Ok i /\ i <= 10 /\
                             dict_get Nat.eqb reverse_mapping i = Ok s)
         (simple_strs m).
Proof.
  intros Hl. destruct (parts_id_of_kind Hl) as [Hk Hh].
  unfold simple_strs. constructor; [exact Hh|].
  apply Forall_forall. intros s Hs. apply repeat_spec in Hs. now subst.
Qed.

Lemma length_simple_strs_word (w : Word) :
  Forall well_formed (morphemes w) ->
  List.length (flat_map simple_strs (morphemes w)) = Word_.len w.
Proof.
  intros Hw. unfold Word_.len. rewrite len_closed. cbn [Nat.add].
  apply length_flat_map. eapply Forall_impl; [|exact Hw].
  intros m [Hn _]. unfold simple_strs. cbn [List.length].
  rewrite repeat_length. lia.
Qed.

(** X17. On a word with a part of speech of [SPEECH_PARTS], morphemes with some
    text and no label NONE, [_get_parse_repr] returns two arrays with one
    row per letter: the rows of [X] are as wide as the input layer of the
    network (57), the rows of [Y] have one place per class (11). *)
Theorem parse_repr_shapes (w : Word) :
  In (sp w) SPEECH_PARTS ->
  Forall well_formed (morphemes w) ->
  exists X Y,
    _get_parse_repr w = Ok (X, Y) /\
    List.length X = Word_.len w /\
    Forall (fun row => List.length row = input_width) X /\
    input_width = 57 /\
    List.length Y = Word_.len w /\
    Forall (fun row => List.length row = 11) Y.
Proof.
  intros Hsp Hw. unfold _get_parse_repr.
  destruct (@mapM_total _ _ (letter_features (sp w))
              (fun row => List.length row = input_width)
              (Word_.get_word w)) as (X & -> & HX & HXrows).
  { apply Forall_forall. intros letter _. now apply letter_features_row. }
  cbn [bind]. rewrite get_simple_labels_strs by assumption. cbn [bind].
  destruct (@mapM_total _ _
              (fun label => id <- parts_id label ;;
                            to_categorical id (List.length PARTS_MAPPING))
              (fun row => List.length row = 11)
              (List.map Some (flat_map simple_strs (morphemes w))))
    as (Y & -> & HY & HYrows).
  { apply Forall_map. apply Forall_flat_map.
    eapply Forall_impl; [|exact Hw]. intros m [_ Hl].
    eapply Forall_impl; [|apply (simple_strs_keys _ Hl)].
    intros s (i & -> & Hi & _). cbn [bind].
    destruct (@to_categorical_row i (List.length PARTS_MAPPING))
      as (row & -> & Hrow); [simpl; lia|].
    eauto. }
  cbn [bind]. exists X, Y. split; [reflexivity|].
  split; [now rewrite HX, length_get_word|].
  split; [assumption|]. split; [reflexivity|].
  split; [|assumption].
  rewrite HY, length_map. now apply length_simple_strs_word.
Qed.

Lemma parse_repr_shapes_witness :
  exists X Y,
    _get_parse_repr two_endings = Ok (X, Y) /\
    List.length X = Word_.len two_endings /\
    Forall (fun row => List.length row = input_width) X /\
    input_width = 57 /\
    List.length Y = Word_.len two_endings /\
    Forall (fun row => List.length row = 11) Y.
Proof.
  apply parse_repr_shapes.
  - vm_compute. tauto.
  - repeat constructor; simpl; try lia; discriminate.
Defined.

(** X18. A word with at least one letter and a part of speech outside
    [SPEECH_PARTS] makes [_get_parse_repr] raise [KeyError]; a line of
    three fields can give such a word. *)
Theorem parse_repr_unknown_speech_part (w : Word) :
  1 <= Word_.len w -> ~ In (sp w) SPEECH_PARTS ->
  _get_parse_repr w = Raise KeyError.
Proof.
  intros Hlen Hsp. unfold _get_parse_repr.
  rewrite <- length_get_word in Hlen.
  destruct (Word_.get_word w) as [|letter text]; [simpl in Hlen; lia|].
  cbn [mapM]. unfold letter_features at 1.
  assert (Hcode : match dict_get N.eqb LETTERS letter with
                  | Ok code => code
                  | Raise _ => 0
                  end < List.length LETTERS + 1).
  { destruct (dict_get N.eqb LETTERS letter) as [code|] eqn:E.
    - apply letter_code_bound in E. simpl. lia.
    - simpl. lia. }
  destruct (to_categorical_row Hcode) as (cat & -> & _).
  cbn [bind]. now rewrite (speech_part_array_unknown Hsp).
Qed.

Lemma parse_repr_unknown_speech_part_witness :
  _get_parse_repr (mkWord [mkMorpheme Scenario.dvor ROOT 0] (lit "FOO"))
  = Raise KeyError.
Proof.
  apply parse_repr_unknown_speech_part.
  - vm_compute. lia.
  - vm_compute. intuition discriminate.
Defined.

(** ** The decoding loop of [classify] *)

Lemma bmes_decoded (first : str) (rest : list str) :
  bmes false
       (List.concat (List.map relabel_str (groups first [first] rest)))
  = true.
Proof.
  pose proof (@groups_nonempty rest first [first]) as Hne.
  specialize (Hne ltac:(discriminate)).
  induction Hne as [|g G Hg _ IH]; [reflexivity|].
  cbn [List.map List.concat]. now rewrite bmes_relabel_str.
Qed.

Lemma reverse_mapping_total (prediction : list nat) :
  Forall (fun id => id <= 10) prediction ->
  exists raw_parse,
    mapM (dict_get Nat.eqb reverse_mapping) prediction = Ok raw_parse /\
    List.length raw_parse = List.length prediction.
Proof.
  intros H.
  destruct (@mapM_total _ _ (dict_get Nat.eqb reverse_mapping)
              (fun _ => True) prediction) as (raw & Hr & Hl & _).
  - eapply Forall_impl; [|exact H]. intros id Hid.
    do 11 (destruct id as [|id]; [eexists; split; [reflexivity|exact I]|]).
    lia.
  - eauto.
Qed.

Lemma Forall_firstn_le {A} (P : A -> Prop) (n : nat) (l : list A) :
  Forall P l -> Forall P (firstn n l).
Proof.
  intros H. revert n. induction H as [|a l Ha _ IH]; intros [|n];
    cbn [firstn]; constructor; auto.
Qed.

(** X19. For a word with at least one letter and a row of class indices from 0
    to 10 that is at least as long as the word, the loop of [classify]
    returns one full label per letter, and the labels read as morphemes. *)
Theorem classify_word_decodes (prediction : list nat) (w : Word) :
  1 <= Word_.len w ->
  Word_.len w <= List.length prediction ->
  Forall (fun id => id <= 10) prediction ->
  exists out,
    classify_word prediction w = Ok out /\
    List.length out = Word_.len w /\
    bmes false out = true.
Proof.
  intros Hpos Hlen Hids. unfold classify_word. rewrite length_get_word.
  destruct (@reverse_mapping_total (firstn (Word_.len w) prediction))
    as (raw & -> & Hraw).
  { now apply Forall_firstn_le. }
  cbn [bind]. rewrite length_firstn, Nat.min_l in Hraw by assumption.
  destruct raw as [|first rest]; [simpl in Hraw; lia|].
  rewrite transform_strs. eexists. split; [reflexivity|]. split.
  - rewrite length_concat_relabel, concat_groups. exact Hraw.
  - apply bmes_decoded.
Qed.

Lemma classify_word_decodes_witness :
  exists out,
    classify_word [10; 2; 2; 2; 4; 0; 0] (mkWord [mkMorpheme Scenario.dvor ROOT 0]
                                                 (lit "X")) = Ok out /\
    List.length out
    = Word_.len (mkWord [mkMorpheme Scenario.dvor ROOT 0] (lit "X")) /\
    bmes false out = true.
Proof.
  apply classify_word_decodes.
  - vm_compute. lia.
  - vm_compute. lia.
  - repeat constructor; lia.
Defined.

(** X20. A word without letters, or an empty row of class indices, makes the
    loop of [classify] raise [IndexError]: the decoder is handed an empty
    list. *)
Theorem classify_word_without_letters (prediction : list nat) (w : Word) :
  Word_.len w = 0 \/ prediction = [] ->
  classify_word prediction w = Raise IndexError.
Proof.
  intros H. unfold classify_word. rewrite length_get_word.
  assert (E : firstn (Word_.len w) prediction = []).
  { destruct H as [-> | ->]; [reflexivity|apply firstn_nil]. }
  rewrite E. reflexivity.
Qed.

Lemma classify_word_without_letters_witness :
  classify_word [2; 2] (mkWord [mkMorpheme [] ROOT 0] (lit "X"))
  = Raise IndexError.
Proof.
  apply classify_word_without_letters. left. reflexivity.
Defined.

Lemma round_trip_strs (ms : list Morpheme) :
  ms <> [] -> Forall well_formed ms -> separable ms ->
  _transform_classification (List.map Some (flat_map simple_strs ms))
  = Ok (flat_map (fun m => full_of (name_of m) (Morpheme_.length m)) ms).
Proof.
  intros Hne Hw Hsep. destruct ms as [|m ms]; [congruence|].
  inversion Hw as [|? ? Hm Hms]; subst.
  cbn [flat_map]. unfold simple_strs at 1. cbn [app].
  rewrite transform_strs.
  rewrite (@groups_morphemes ms m); try assumption;
    [|apply closes_kind_head].
  f_equal. cbn [List.map List.concat app].
  fold (simple_strs m). rewrite (relabel_simple_strs Hm). f_equal.
  clear Hsep Hw Hne. induction Hms as [|a l Ha _ IH]; [reflexivity|].
  cbn [List.map List.concat flat_map].
  now rewrite (relabel_simple_strs Ha), IH.
Qed.

Lemma targets_of_strs (strs : list str) :
  Forall (fun s => exists i, parts_id (Some s) = Ok i /\ i <= 10 /\
                             dict_get Nat.eqb reverse_mapping i = Ok s) strs ->
  exists ids,
    mapM parts_id (List.map Some strs) = Ok ids /\
    List.length ids = List.length strs /\
    Forall (fun id => id <= 10) ids /\
    mapM (dict_get Nat.eqb reverse_mapping) ids = Ok strs.
Proof.
  induction 1 as [|s strs (i & Hi & Hb & Hr) _ (ids & Hids & Hlen & Hbs & Hrs)].
  - exists []. repeat split. constructor.
  - exists (i :: ids). cbn [List.map mapM]. rewrite Hi. cbn [bind].
    rewrite Hids. cbn [bind]. split; [reflexivity|].
    split; [simpl; now rewrite Hlen|]. split; [now constructor|].
    rewrite Hr. cbn [bind]. now rewrite Hrs.
Qed.

(** X21. A network that answers with the training targets is decoded to the
    gold labels: for a word with at least one morpheme, each with some text
    and a kind other than NONE, no two neighbours sharing a kind outside
    PREF, ROOT and SUFF, the class indices of its simple labels are all
    between 0 and 10, and the loop of [classify], run on them with any
    padding behind, returns the full labels of the word. *)
Theorem classify_own_targets (w : Word) (padding : list nat) :
  morphemes w <> [] ->
  Forall well_formed (morphemes w) ->
  separable (morphemes w) ->
  exists ids full,
    target_ids w = Ok ids /\
    Forall (fun id => id <= 10) ids /\
    Word_.get_labels w = Ok full /\
    classify_word (ids ++ padding) w = Ok full.
Proof.
  intros Hne Hw Hsep. unfold target_ids, classify_word.
  rewrite get_simple_labels_strs by assumption. cbn [bind].
  destruct (@targets_of_strs (flat_map simple_strs (morphemes w)))
    as (ids & Hids & Hlen & Hb & Hr).
  { apply Forall_flat_map. eapply Forall_impl; [|exact Hw].
    intros m [_ Hl]. now apply simple_strs_keys. }
  rewrite Hids. exists ids. eexists.
  split; [reflexivity|]. split; [assumption|].
  split; [now apply get_labels_full|].
  rewrite length_get_word, <- (length_simple_strs_word w Hw), <- Hlen.
  rewrite firstn_app, Nat.sub_diag, firstn_all. cbn [firstn].
  rewrite app_nil_r, Hr. cbn [bind].
  now apply round_trip_strs.
Qed.

Lemma classify_own_targets_witness :
  exists ids full,
    target_ids (mkWord [mkMorpheme Scenario.pri PREF 0;
                        mkMorpheme Scenario.yj END 3] (lit "X")) = Ok ids /\
    Forall (fun id => id <= 10) ids /\
    Word_.get_labels (mkWord [mkMorpheme Scenario.pri PREF 0;
                              mkMorpheme Scenario.yj END 3] (lit "X"))
    = Ok full /\
    classify_word (ids ++ [0; 0; 0])
                  (mkWord [mkMorpheme Scenario.pri PREF 0;
                           mkMorpheme Scenario.yj END 3] (lit "X")) = Ok full.
Proof.
  apply classify_own_targets; simpl.
  - discriminate.
  - repeat constructor; simpl; try lia; discriminate.
  - repeat split; discriminate.
Defined.

(** ** The shared default list of [Word] *)

Lemma nth_append_at (a b : nat) (m : Morpheme) (st : Heap.store) :
  a < List.length st ->
  nth b (Heap.append_at a m st) []
  = if Nat.eqb b a then nth b st [] ++ [m] else nth b st [].
Proof.
  revert a b. induction st as [|l st IH]; intros a b Ha; [simpl in Ha; lia|].
  destruct a as [|a], b as [|b]; cbn [Heap.append_at nth Nat.eqb];
    try reflexivity.
  apply IH. simpl in Ha. lia.
Qed.

(** X22. Words built without a list of morphemes share one list: after
    [append_morpheme] on one of them every other such word has the new
    morpheme too, whatever its part of speech, while a word built on a
    list of its own, as [parse_word] builds it, keeps its morphemes. *)
Theorem default_morphemes_are_shared
        (st : Heap.store) (m : Morpheme) (sp1 sp2 sp3 : option str)
        (ms : list Morpheme) :
  st <> [] ->
  let w1 := Heap.Word_init None sp1 in
  let w2 := Heap.Word_init None sp2 in
  let (a, st1) := Heap.new_list ms st in
  let w3 := Heap.Word_init (Some a) sp3 in
  let st2 := Heap.append_morpheme w1 m st1 in
  Heap.morphemes_of w2 st2 = Heap.morphemes_of w2 st1 ++ [m] /\
  Heap.parts_count w2 st2 = S (Heap.parts_count w2 st1) /\
  Heap.morphemes_of w3 st2 = ms /\
  Heap.morphemes_of w2 (Heap.append_morpheme w3 m st1)
  = Heap.morphemes_of w2 st1.
Proof.
  intros Hne. unfold Heap.new_list. cbv beta iota zeta.
  unfold Heap.parts_count, Heap.append_morpheme, Heap.morphemes_of,
    Heap.Word_init, Heap.default_morphemes.
  cbn [Heap.morphemes_at].
  assert (Hlen : 0 < List.length (st ++ [ms]))
    by (rewrite length_app; simpl; lia).
  assert (Hlen' : List.length st < List.length (st ++ [ms]))
    by (rewrite length_app; simpl; lia).
  rewrite !nth_append_at by assumption.
  cbn [Nat.eqb]. split; [reflexivity|]. split.
  - rewrite length_app. cbn [List.length]. lia.
  - destruct st as [|l st]; [congruence|]. cbn [List.length Nat.eqb].
    split; [|reflexivity].
    change (S (List.length st)) with (List.length (l :: st)).
    rewrite app_nth2, Nat.sub_diag by lia. reflexivity.
Qed.

Lemma default_morphemes_are_shared_witness :
  Heap.morphemes_of
    (Heap.Word_init None (Some (lit "NOUN")))
    (Heap.append_morpheme (Heap.Word_init None None)
                          (mkMorpheme Scenario.dvor ROOT 0)
                          (Heap.initial ++ [[]]))
  = Heap.morphemes_of (Heap.Word_init None (Some (lit "NOUN")))
                      (Heap.initial ++ [[]])
    ++ [mkMorpheme Scenario.dvor ROOT 0].
Proof.
  apply (@default_morphemes_are_shared Heap.initial
           (mkMorpheme Scenario.dvor ROOT 0) None (Some (lit "NOUN")) None []).
  discriminate.
Defined.

(** ** Offsets of every parsed word, unlabeled words *)

Lemma token_offsets_nth (ms : list Morpheme) :
  forall (gi : Z) (i : nat) (m m' : Morpheme),
    token_offsets gi ms ->
    nth_error ms i = Some m -> nth_error ms (S i) = Some m' ->
    (begin_pos m' =
       Morpheme_.end_pos m + 1
         + Z.of_nat (List.length (member_name (label m))))%Z.
Proof.
  induction ms as [|a ms IH]; intros gi i m m' Hoff Hm Hm';
    [destruct i; discriminate|].
  destruct i as [|i].
  - cbn [nth_error] in Hm, Hm'. injection Hm as ->.
    destruct ms as [|b ms]; [discriminate|]. cbn [nth_error] in Hm'.
    injection Hm' as ->. now apply (token_offsets_gap Hoff).
  - cbn [token_offsets] in Hoff. destruct Hoff as [_ Hoff].
    eapply IH; [exact Hoff|exact Hm|exact Hm'].
Qed.

(** X23. On every line that [parse_word] accepts, the first morpheme begins at
    0 and each further morpheme begins one colon and one kind name after
    the end of the one before it, never at that end. *)
Theorem parsed_offsets_skip_the_kind (line : str) (w : Word) :
  parse_word line = Ok (Some w) ->
  (exists m0, nth_error (morphemes w) 0 = Some m0 /\ begin_pos m0 = 0%Z) /\
  forall i m m',
    nth_error (morphemes w) i = Some m ->
    nth_error (morphemes w) (S i) = Some m' ->
    (begin_pos m' =
       Morpheme_.end_pos m + 1
         + Z.of_nat (List.length (member_name (label m))))%Z /\
    (Morpheme_.end_pos m < begin_pos m')%Z.
Proof.
  intros Hp. apply parse_word_offsets in Hp. destruct Hp as [Hoff Hne].
  split.
  - destruct (morphemes w) as [|m0 ms]; [congruence|].
    exists m0. split; [reflexivity|]. now destruct Hoff.
  - intros i m m' Hm Hm'.
    pose proof (@token_offsets_nth _ _ _ _ _ Hoff Hm Hm') as E.
    split; [exact E|lia].
Qed.

Lemma parsed_offsets_skip_the_kind_witness :
  (exists m0,
      nth_error [mkMorpheme Scenario.pri PREF 0;
                 mkMorpheme Scenario.dvor ROOT 8] 0 = Some m0 /\
      begin_pos m0 = 0%Z) /\
  forall i m m',
    nth_error [mkMorpheme Scenario.pri PREF 0;
               mkMorpheme Scenario.dvor ROOT 8] i = Some m ->
    nth_error [mkMorpheme Scenario.pri PREF 0;
               mkMorpheme Scenario.dvor ROOT 8] (S i) = Some m' ->
    (begin_pos m' =
       Morpheme_.end_pos m + 1
         + Z.of_nat (List.length (member_name (label m))))%Z /\
    (Morpheme_.end_pos m < begin_pos m')%Z.
Proof.
  apply (@parsed_offsets_skip_the_kind
           (lit "w" ++ [tab] ++ Scenario.pri ++ lit ":PREF/" ++ Scenario.dvor
                ++ lit ":ROOT")
           (mkWord [mkMorpheme Scenario.pri PREF 0;
                    mkMorpheme Scenario.dvor ROOT 8] (lit "X"))).
  vm_compute. reflexivity.
Defined.

Lemma flat_map_repeat {A B} (v : B) (n : A -> nat) (l : list A) :
  flat_map (fun a => repeat v (n a)) l
  = repeat v (list_sum (List.map n l)).
Proof.
  induction l as [|a l IH]; [reflexivity|].
  cbn [flat_map List.map]. rewrite list_sum_cons, repeat_app, IH.
  reflexivity.
Qed.

Lemma mapM_parts_id_None (n : nat) :
  1 <= n -> mapM parts_id (repeat None n) = Raise KeyError.
Proof.
  destruct n; [lia|reflexivity].
Qed.

(** X24. A word whose morphemes are all unlabeled has [None] as the simple
    label of every letter; it has no full labels once it has a morpheme,
    and no class indices once it has a letter. *)
Theorem unlabeled_word_labels (w : Word) :
  Word_.unlabeled w = true ->
  Word_.get_simple_labels w = Ok (repeat None (Word_.len w)) /\
  (morphemes w <> [] -> Word_.get_labels w = Raise TypeError) /\
  (1 <= Word_.len w -> target_ids w = Raise KeyError).
Proof.
  intros Hu. unfold Word_.unlabeled in Hu. rewrite forallb_forall in Hu.
  assert (Hs : Word_.get_simple_labels w = Ok (repeat None (Word_.len w))).
  { unfold Word_.get_simple_labels, Word_.len.
    rewrite (@collect_closed _ _
               (fun m => repeat None (Morpheme_.length m))).
    - cbn [app]. now rewrite flat_map_repeat, len_closed.
    - apply Forall_forall. intros m Hm.
      rewrite get_simple_labels_closed.
      apply Hu, unlabeled_NONE in Hm. now rewrite Hm. }
  split; [exact Hs|]. split.
  - intros Hne. unfold Word_.get_labels. apply collect_raises.
    + intros m Hm. right. now apply get_labels_unlabeled, Hu.
    + destruct (morphemes w) as [|m ms]; [congruence|].
      constructor. apply get_labels_unlabeled, Hu. now left.
  - intros Hlen. unfold target_ids. rewrite Hs. cbn [bind].
    now apply mapM_parts_id_None.
Qed.

Lemma unlabeled_word_labels_witness :
  Word_.get_simple_labels
    (mkWord [mkMorpheme Scenario.yj NONE 0] (lit "X"))
  = Ok (repeat None
          (Word_.len (mkWord [mkMorpheme Scenario.yj NONE 0] (lit "X")))) /\
  (morphemes (mkWord [mkMorpheme Scenario.yj NONE 0] (lit "X")) <> [] ->
   Word_.get_labels (mkWord [mkMorpheme Scenario.yj NONE 0] (lit "X"))
   = Raise TypeError) /\
  (1 <= Word_.len (mkWord [mkMorpheme Scenario.yj NONE 0] (lit "X")) ->
   target_ids (mkWord [mkMorpheme Scenario.yj NONE 0] (lit "X"))
   = Raise KeyError).
Proof.
  apply unlabeled_word_labels. reflexivity.
Defined.
